(** * Domain-composition extraction for BGC representatives

    A shallow embedding of [4.umap/extract_compositions.py]: identifier
    canonicalisation, ingestion of the two record families, p-value
    filtering, regrouping of the flat gene list, ordering by GCF label and
    serialisation of the three output files. *)

From Stdlib Require Import PrimFloat FloatOps FloatAxioms SpecFloat Ascii.
From stdpp Require Import gmap strings list fin_maps sorting.

Set Default Proof Using "Type".

(** ** Python [str] operations used by the script *)

Module PyStr.

(** [s.startswith(p)] *)
Definition startswith (s p : string) : bool := String.prefix p s.

(** [s.rsplit(sep, 1)] for a one-character separator: [None] stands for
    the one-element list [[s]], [Some (h, t)] for [[h, t]], the split at
    the last occurrence of [sep]. *)
Fixpoint rsplit1 (sep : ascii) (s : string) : option (string * string) :=
  match s with
  | EmptyString => None
  | String c r =>
      match rsplit1 sep r with
      | Some (h, t) => Some (String c h, t)
      | None => if Ascii.eqb c sep then Some (EmptyString, r) else None
      end
  end.

(** [s.rsplit(sep, 1)[0]] *)
Definition rsplit1_head (sep : ascii) (s : string) : string :=
  match rsplit1 sep s with
  | Some (h, _) => h
  | None => s
  end.

(** Number of occurrences of the character [c] in [s]. *)
Fixpoint count (c : ascii) (s : string) : nat :=
  match s with
  | EmptyString => 0
  | String a r => (if Ascii.eqb a c then 1 else 0) + count c r
  end.

(** [s.endswith(p)] for a one-character [p]. *)
Fixpoint endswith_char (s : string) (c : ascii) : bool :=
  match s with
  | EmptyString => false
  | String a EmptyString => Ascii.eqb a c
  | String _ r => endswith_char r c
  end.

(** [s.split(sep)] for a one-character separator. *)
Fixpoint split (sep : ascii) (s : string) : list string :=
  match s with
  | EmptyString => [EmptyString]
  | String c r =>
      if Ascii.eqb c sep then EmptyString :: split sep r
      else match split sep r with
           | h :: t => String c h :: t
           | [] => [String c EmptyString]
           end
  end.

(** [s.splitlines()] for a text whose only line break is ["\n"]: the
    pieces between line feeds, without a last empty piece. *)
Definition splitlines (s : string) : list string :=
  let parts := split "010" s in
  match last parts with
  | Some EmptyString => removelast parts
  | _ => parts
  end.

End PyStr.

(** ** Identifier canonicalisation (lines 129 and 191)

    [name.rsplit(".", 1)[0] if name.startswith("BGC") else name] *)

Definition canonical (name : string) : string :=
  if PyStr.startswith name "BGC" then PyStr.rsplit1_head "." name else name.

(** ** Exceptions and fallible computations

    [exit(1)] after [progress.print(cds)] is a [SystemExit] that carries the
    printed feature; subscripting a dict with a missing key is a [KeyError],
    subscripting an empty list an [IndexError]; [f.write] of an object that
    is not a string is a [TypeError]; [os.makedirs] raises
    [FileExistsError], [FileNotFoundError] and [NotADirectoryError].
    [External] stands for an exception raised inside a library call. *)

Section Results.
Context {Printed : Type}.

Inductive exn :=
| SystemExit (printed : Printed) (code : Z)
| KeyError (key : string)
| IndexError
| TypeError
| FileExistsError (path : string)
| FileNotFoundError (path : string)
| NotADirectoryError (path : string)
| External (what : string).

Inductive result (A : Type) :=
| Ok (a : A)
| Raise (e : exn).
#[global] Arguments Ok {A} a.
#[global] Arguments Raise {A} e.

Definition result_bind {A B} (f : A → result B) (m : result A) : result B :=
  match m with
  | Ok a => f a
  | Raise e => Raise e
  end.

Definition raises {A} (m : result A) : Prop := ∃ e, m = Raise e.

(** [for x in l: acc = f(acc, x)], stopping at the first exception. *)
Fixpoint foldM {A B} (f : B → A → result B) (acc : B) (l : list A) : result B :=
  match l with
  | [] => Ok acc
  | x :: l =>
      match f acc x with
      | Ok acc' => foldM f acc' l
      | Raise e => Raise e
      end
  end.
End Results.
Arguments exn : clear implicits.
Arguments result : clear implicits.

#[global] Instance result_ret {P} : MRet (result P) := λ A a, Ok a.
#[global] Instance result_mbind {P} : MBind (result P) := λ A B f m, result_bind f m.

(** ** Data model

    [gb_io] records and features, and the [gecco.model] entities. *)

Record Feature := mkFeature {
  f_type : string;
  f_start : Z;
  f_end : Z;
  f_qualifiers : list (string * string)
}.

Record GbRecord := mkRecord {
  r_name : string;
  r_features : list Feature
}.

Record Domain := mkDomain {
  d_name : string;
  d_pvalue : float
}.

Record Protein := mkProtein {
  p_id : string;
  p_seq : string;
  p_domains : list Domain
}.

Inductive Strand := Coding | Reverse.

Record Gene := mkGene {
  g_source : GbRecord;
  g_start : Z;
  g_end : Z;
  g_strand : Strand;
  g_protein : Protein
}.

Record Cluster := mkCluster {
  c_id : string;
  c_genes : list Gene
}.

(** [protein.with_domains(ds)] and [gene.with_protein(p)]: functional
    updates that copy every other field. *)
Definition with_domains (p : Protein) (ds : list Domain) : Protein :=
  {| p_id := p_id p; p_seq := p_seq p; p_domains := ds |}.

Definition with_protein (g : Gene) (p : Protein) : Gene :=
  {| g_source := g_source g; g_start := g_start g; g_end := g_end g;
     g_strand := g_strand g; g_protein := p |}.

Abbreviation res := (result Feature).

(** [cds.qualifiers.to_dict()]: the values of each key, in file order. *)
Definition to_dict (qs : list (string * string)) : gmap string (list string) :=
  fold_left (λ d kv, <[kv.1 := default [] (d !! kv.1) ++ [kv.2]]> d) qs ∅.

(** [d[k][0]] *)
Definition getitem0 (d : gmap string (list string)) (k : string) : res string :=
  match d !! k with
  | None => Raise (KeyError k)
  | Some [] => Raise IndexError
  | Some (v :: _) => Ok v
  end.

(** [k in d] *)
Definition contains (d : gmap string (list string)) (k : string) : bool :=
  bool_decide (is_Some (d !! k)).

(** ** Record normalisation (lines 105-121 and 135-142) *)

Definition is_CDS (f : Feature) : Prop := f_type f = "CDS".

#[global] Instance is_CDS_dec (f : Feature) : Decision (is_CDS f).
Proof. unfold is_CDS. apply _. Defined.

(** Body of the loop of [region_to_cluster] (lines 108-119). *)
Definition region_gene (record : GbRecord) (cds : Feature) : res Gene :=
  let qualifiers := to_dict (f_qualifiers cds) in
  id_ ← (if contains qualifiers "locus_tag" then getitem0 qualifiers "locus_tag"
         else if contains qualifiers "protein_id" then getitem0 qualifiers "protein_id"
         else if contains qualifiers "gene" then getitem0 qualifiers "gene"
         else Raise (SystemExit cds 1));
  seq ← getitem0 qualifiers "translation";
  let protein := mkProtein id_ seq [] in
  mret (mkGene record (f_start cds) (f_end cds) Coding protein).

Definition region_to_cluster (record : GbRecord) (bgc_id : string) : res Cluster :=
  genes ← mapM (region_gene record) (filter is_CDS (r_features record));
  mret (mkCluster bgc_id genes).

(** Body of the loop of [record_to_cluster] (lines 138-140). *)
Definition record_gene (record : GbRecord) (cds : Feature) : res Gene :=
  let qualifiers := to_dict (f_qualifiers cds) in
  seq ← getitem0 qualifiers "translation";
  let protein := mkProtein (r_name record) seq [] in
  mret (mkGene record (f_start cds) (f_end cds) Coding protein).

Definition record_to_cluster (record : GbRecord) : res Cluster :=
  genes ← mapM (record_gene record) (filter is_CDS (r_features record));
  mret (mkCluster (r_name record) genes).

(** ** The label table (lines 99-101)

    [pandas.read_table] gives each column a type: the cells of [gcf_id] are
    strings, unless the whole column reads as numbers or booleans; a cell
    left empty is a float. *)

Inductive cell :=
| Str (s : string)
| Int (z : Z)
| Float (f : float)
| Bool (b : bool).

#[global] Instance cell_inhabited : Inhabited cell := populate (Str "").

(** The string that a cell holds, if it is of type [str]. *)
Definition as_str (v : cell) : option string :=
  match v with
  | Str s => Some s
  | _ => None
  end.

(** [gcfs] is the list of rows [(gcf_representative, gcf_id)]; in the dict
    comprehension a later row overrides an earlier one with the same key. *)

Definition representative_ids (gcfs : list (string * cell)) : gset string :=
  list_to_set gcfs.*1.

Definition bgc_to_gcf_index (gcfs : list (string * cell)) : gmap string cell :=
  fold_left (λ d row, <[row.1 := row.2]> d) gcfs ∅.

(** ** Ingestion (lines 123-131 and 144-152)

    A source file is the list of the records that [gb_io.iter] yields. *)

Definition antismash_step (reps : gset string)
    (antismash_clusters : list Cluster) (record : GbRecord) : res (list Cluster) :=
  let id_ := canonical (r_name record) in
  if decide (id_ ∈ reps) then
    cluster ← region_to_cluster record id_;
    mret (antismash_clusters ++ [cluster])
  else mret antismash_clusters.

Definition antismash_ingest (reps : gset string)
    (AS_RECORDS : list (list GbRecord)) : res (list Cluster) :=
  foldM (foldM (antismash_step reps)) [] AS_RECORDS.

Definition gecco_step (reps : gset string)
    (gecco_clusters : list Cluster) (record : GbRecord) : res (list Cluster) :=
  if decide (r_name record ∈ reps) then
    cluster ← record_to_cluster record;
    mret (gecco_clusters ++ [cluster])
  else mret gecco_clusters.

Definition gecco_ingest (reps : gset string)
    (GECCO_RECORDS : list (list GbRecord)) : res (list Cluster) :=
  foldM (foldM (gecco_step reps)) [] GECCO_RECORDS.

(** Line 168: [clusters = gecco_clusters + antismash_clusters]; the
    antiSMASH files are read first. *)
Definition clusters (reps : gset string)
    (AS_RECORDS GECCO_RECORDS : list (list GbRecord)) : res (list Cluster) :=
  antismash_clusters ← antismash_ingest reps AS_RECORDS;
  gecco_clusters ← gecco_ingest reps GECCO_RECORDS;
  mret (gecco_clusters ++ antismash_clusters).

(** ** Vocabulary of the statements about qualifiers *)

(** The values of qualifier [k] of a feature, in file order, and the first
    of them. *)
Definition values (k : string) (qs : list (string * string)) : list string :=
  (filter (λ kv : string * string, kv.1 = k) qs).*2.

Definition qualifier (k : string) (cds : Feature) : option string :=
  head (values k (f_qualifiers cds)).

(** The fallback chain in the words of the specification: locus tag, else
    protein identifier, else gene name. *)
Definition fallback_id (cds : Feature) : option string :=
  match qualifier "locus_tag" cds with
  | Some v => Some v
  | None =>
      match qualifier "protein_id" cds with
      | Some v => Some v
      | None => qualifier "gene" cds
      end
  end.

(** ** Significance filter (lines 180-183) *)

#[warnings="-inexact-float"]
Definition threshold : float := 1e-5%float.

(** [d.pvalue < 1e-5], the comparison of IEEE doubles. *)
Definition significant (d : Domain) : bool := PrimFloat.ltb (d_pvalue d) threshold.

Definition filter_gene (gene : Gene) : Gene :=
  with_protein gene
    (with_domains (g_protein gene)
       (filter (λ d, significant d) (p_domains (g_protein gene)))).

Definition filter_genes (genes : list Gene) : list Gene := filter_gene <$> genes.

(** ** Sorting and grouping (lines 186-193) *)

Section SortGroup.
Context {A : Type} (key : A → string).

(** [list.sort(key=...)] is stable: among all sorted permutations it is
    the one that keeps elements with equal keys in their original order.
    Insertion in front of the first element whose key is not smaller
    computes it. *)
Fixpoint insert_by (x : A) (l : list A) : list A :=
  match l with
  | [] => [x]
  | y :: l' => if String.leb (key x) (key y) then x :: l else y :: insert_by x l'
  end.

Definition sort_by (l : list A) : list A := foldr insert_by [] l.

(** [itertools.groupby(l, key)]: the maximal runs of consecutive elements
    with equal keys, each with its key. *)
Fixpoint groupby (l : list A) : list (string * list A) :=
  match l with
  | [] => []
  | x :: l' =>
      match groupby l' with
      | (k, g) :: gs =>
          if decide (key x = k) then (k, x :: g) :: gs
          else (key x, [x]) :: (k, g) :: gs
      | [] => [(key x, [x])]
      end
  end.
End SortGroup.

(** The keyed elements, when every key is a string. *)
Definition str_keyed {A} (keyed : list (cell * A)) : option (list (string * A)) :=
  mapM (λ kx, k ← as_str kx.1; mret (k, kx.2)) keyed.

(** [list.sort(key=...)] with a key function that may raise: the keys are
    computed for every element, first to last, before any comparison.
    Keys that are all strings are compared as strings. [sort_other] is
    what [list.sort] does with keys of which one is not a string: Python
    compares numbers by value and raises a [TypeError] when a string meets
    a number. *)
Definition sort_by_key {P A} (sort_other : list (cell * A) → result P (list A))
    (keyM : A → result P cell) (l : list A) : result P (list A) :=
  keyed ← mapM (λ x, k ← keyM x; mret (k, x)) l;
  match str_keyed keyed with
  | Some keyed => mret (sort_by fst keyed).*2
  | None => sort_other keyed
  end.

(** Line 173: the flat gene list. *)
Definition genes_of (clusters : list Cluster) : list Gene :=
  cluster ← clusters; c_genes cluster.

Definition source_name (g : Gene) : string := r_name (g_source g).

(** Lines 186-193: sort by source record name, group, rename. *)
Definition regroup (genes : list Gene) : list Cluster :=
  (λ run, mkCluster (canonical run.1) run.2) <$>
    groupby source_name (sort_by source_name genes).

(** ** Vocabulary of the statement about regrouping *)

(** The records that pass the membership tests, in the order of [clusters]. *)
Definition ingested_records (reps : gset string)
    (AS_RECORDS GECCO_RECORDS : list (list GbRecord)) : list GbRecord :=
  filter (λ record, r_name record ∈ reps) (concat GECCO_RECORDS) ++
  filter (λ record, canonical (r_name record) ∈ reps) (concat AS_RECORDS).

(** [hmmer.run] (lines 174-177) appends domains to the proteins of the
    genes in place: after it the merged clusters own the same genes, with
    other domain lists. *)
Definition annotated (g g' : Gene) : Prop :=
  ∃ ds, g' = with_protein g (with_domains (g_protein g) ds).

Definition annotation (cs cs' : list Cluster) : Prop :=
  Forall2 (λ c c', c_id c' = c_id c ∧ Forall2 annotated (c_genes c) (c_genes c'))
    cs cs'.

(** The annotation that gives gene [g] the domains [hits g]. *)
Definition annotate (hits : Gene → list Domain) (cs : list Cluster) : list Cluster :=
  (λ c, mkCluster (c_id c)
          ((λ g, with_protein g (with_domains (g_protein g) (hits g))) <$> c_genes c))
    <$> cs.

(** Every gene of cluster [c] refers back to [record]. *)
Definition owned_by (record : GbRecord) (c : Cluster) : Prop :=
  Forall (λ g, g_source g = record) (c_genes c).

(** The ingestion grouping: each ingested record name with the genes that
    its cluster owns, after the significance filter. *)
Definition source_groups (records : list GbRecord) (cs : list Cluster)
    : list (string * list Gene) :=
  zip_with (λ record c, (r_name record, filter_gene <$> c_genes c)) records cs.

(** ** Vocabulary (line 202) *)

Definition domain_names (all_clusters : list Cluster) : list string :=
  cluster ← all_clusters; gene ← c_genes cluster;
  domain ← p_domains (g_protein gene); [d_name domain].

(** [sorted({...})]: the elements of the set, in ascending order. *)
Definition all_possible (all_clusters : list Cluster) : list string :=
  sort_by id (elements (list_to_set (domain_names all_clusters) : gset string)).

(** ** Output files (lines 196-219) *)

Definition TAB : string := String "009" EmptyString.
Definition NL : string := String "010" EmptyString.

(** [os.path.join(a, b)] *)
Definition path_join (a b : string) : string :=
  if PyStr.startswith b "/" then b
  else if bool_decide (a = "") || PyStr.endswith_char a "/" then a +:+ b
  else a +:+ "/" +:+ b.

(** [d[k]] *)
Definition getitem (d : gmap string cell) (k : string) : res cell :=
  match d !! k with
  | Some v => Ok v
  | None => Raise (KeyError k)
  end.

Section Finalize.
Context {Row : Type}.

Inductive content :=
| Text (s : string)
| Npz (comp : list Row).

(** The part of the file system that the script touches. *)
Record FS := mkFS {
  dirs : gset string;
  files : gmap string content
}.

(** Computations that read and write the file system and may raise. *)
Definition io (A : Type) : Type := FS → res A * FS.

#[global] Instance io_ret : MRet io := λ A a fs, (Ok a, fs).
#[global] Instance io_bind : MBind io := λ A B f m fs,
  match m fs with
  | (Ok a, fs') => f a fs'
  | (Raise e, fs') => (Raise e, fs')
  end.

Definition lift {A} (m : res A) : io A := λ fs, (m, fs).

(** The calls that write a file. *)
Inductive syscall :=
| Open (path : string)
| Write (path : string) (s : string)
| SaveNpz (path : string).

(** What the finalisation takes from outside the script.

    [cluster.domain_composition(all_possible)] belongs to [gecco.model]: a
    library call that returns one row of the matrix or raises.
    [empty_row] is the row without any column.
    [makedirs] is [os.makedirs(path, exist_ok=True)]: it creates the
    directory at [path] and the parents that are not there, and it raises,
    maybe after it has created some of them, when the operating system
    refuses one.
    [os_error call fs] is the exception that the operating system raises
    on a call that writes a file, with the file system that the failed call
    leaves, and [None] when the call goes through.
    [sort_other] orders keys that are not all strings (see [sort_by_key]). *)
Context (domain_composition : Cluster → list string → res Row)
        (empty_row : Row)
        (makedirs : string → io ())
        (os_error : syscall → FS → option (exn Feature * FS))
        (sort_other : list (cell * Cluster) → res (list Cluster)).

Definition os_call (call : syscall) (effect : FS → FS) : io () := λ fs,
  match os_error call fs with
  | Some (e, fs') => (Raise e, fs')
  | None => (Ok (), effect fs)
  end.

(** [open(path, "w")] creates or truncates the file. *)
Definition open_w (path : string) : io () :=
  os_call (Open path) (λ fs, mkFS (dirs fs) (<[path := Text ""]> (files fs))).

(** [f.write(s)] of a string on the file opened at [path]. *)
Definition write (path s : string) : io () :=
  let append c := match c with Text t => Text (t +:+ s) | Npz m => Npz m end in
  os_call (Write path s) (λ fs, mkFS (dirs fs) (alter append path (files fs))).

(** [f.write(v)] of a cell of the label table: a text file takes strings
    only. *)
Definition write_cell (path : string) (v : cell) : io () :=
  match v with
  | Str s => write path s
  | _ => lift (Raise TypeError)
  end.

(** [scipy.sparse.coo_matrix(numpy.array(rows))]: the rows stacked into a
    matrix. Without any row [numpy.array([])] has one dimension, of length
    0, and [coo_matrix] makes of it a matrix of one row without column. *)
Definition coo_matrix (rows : list Row) : list Row :=
  match rows with
  | [] => [empty_row]
  | _ => rows
  end.

(** [scipy.sparse.save_npz(path, matrix)] *)
Definition save_npz (path : string) (matrix : list Row) : io () :=
  os_call (SaveNpz path) (λ fs, mkFS (dirs fs) (<[path := Npz matrix]> (files fs))).

(** [for x in l: body(x)] *)
Fixpoint for_each {A} (l : list A) (body : A → io ()) : io () :=
  match l with
  | [] => mret ()
  | x :: l => body x;; for_each l body
  end.

(** Lines 208-211: the row of one cluster. *)
Definition label_row (index : gmap string cell) (path : string) (cluster : Cluster)
    : io () :=
  write path (c_id cluster);;
  write path TAB;;
  gcf ← lift (getitem index (c_id cluster));
  write_cell path gcf;;
  write path NL.

(** Lines 206-211. *)
Definition write_labels (index : gmap string cell) (path : string)
    (all_clusters : list Cluster) : io () :=
  open_w path;;
  for_each all_clusters (label_row index path).

(** Lines 213-216. *)
Definition write_domains (path : string) (all_possible : list string) : io () :=
  open_w path;;
  for_each all_possible (λ domain, write path domain;; write path NL).

(** Lines 198-219. *)
Definition finalize (index : gmap string cell) (output : string)
    (all_clusters : list Cluster) : io () :=
  all_clusters ← lift (sort_by_key sort_other
                         (λ cluster, getitem index (c_id cluster)) all_clusters);
  let all_possible := all_possible all_clusters in
  makedirs output;;
  write_labels index (path_join output "labels.tsv") all_clusters;;
  write_domains (path_join output "domains.tsv") all_possible;;
  comp ← lift (mapM (λ c, domain_composition c all_possible) all_clusters);
  save_npz (path_join output "compositions.npz") (coo_matrix comp).

(** Lines 179-219: from the annotated flat gene list to the files. *)
Definition second_phase (index : gmap string cell) (output : string)
    (genes : list Gene) : io () :=
  finalize index output (regroup (filter_genes genes)).
End Finalize.

Arguments content Row : clear implicits.
Arguments FS Row : clear implicits.
Arguments io Row A : clear implicits.

(** ** Vocabulary of the statements about the output files *)

(** The cluster has a row in the label table. *)
Definition present (index : gmap string cell) (c : Cluster) : Prop :=
  is_Some (index !! c_id c).

#[global] Instance present_dec index c : Decision (present index c).
Proof. unfold present. apply _. Defined.

(** The cluster has a row in the label table, and its group identifier is
    a string. *)
Definition labelled (index : gmap string cell) (c : Cluster) : Prop :=
  is_Some (index !! c_id c ≫= as_str).

#[global] Instance labelled_dec index c : Decision (labelled index c).
Proof. unfold labelled. apply _. Defined.

(** The group identifier of a labelled cluster. *)
Definition gcf_of (index : gmap string cell) (cluster : Cluster) : string :=
  default "" (index !! c_id cluster ≫= as_str).

Definition label_line (index : gmap string cell) (cluster : Cluster) : string :=
  c_id cluster +:+ TAB +:+ gcf_of index cluster.

(** The text made of the given lines, each ended by a line feed. *)
Definition text_of (lines : list string) : string :=
  foldr (λ line text, line +:+ NL +:+ text) "" lines.

(** The file system once [labels.tsv] and [domains.tsv] are written, in the
    directory that [os.makedirs] left in [fs], for the ordered cluster list
    [sorted]. *)
Definition tables_written {Row} (index : gmap string cell) (output : string)
    (sorted : list Cluster) (fs : FS Row) : FS Row :=
  mkFS (dirs fs)
    (<[path_join output "domains.tsv" := Text (text_of (all_possible sorted))]>
       (<[path_join output "labels.tsv" := Text (text_of (label_line index <$> sorted))]>
          (files fs))).

(** No call that writes a file fails. *)
Definition writable {Row} (os_error : syscall → FS Row → option (exn Feature * FS Row))
    : Prop :=
  ∀ call fs, os_error call fs = None.

(** A string that can stand in a field of a tab-separated line. *)
Definition tsv_field (s : string) : Prop :=
  PyStr.count "009" s = 0 ∧ PyStr.count "010" s = 0.

#[global] Instance tsv_field_dec s : Decision (tsv_field s).
Proof. unfold tsv_field. apply _. Defined.

(** ** Vocabulary of the statements about well-formed records *)

(** What [region_to_cluster] needs of a coding feature: an identifier
    qualifier and a translation; [record_to_cluster] needs the translation
    only. *)
Definition region_ok (cds : Feature) : Prop :=
  is_Some (fallback_id cds) ∧ is_Some (qualifier "translation" cds).

Definition record_ok (cds : Feature) : Prop :=
  is_Some (qualifier "translation" cds).

(** The exception that [region_to_cluster] raises on a coding feature that
    is not well formed: the exit comes first. *)
Definition region_error (cds : Feature) : exn Feature :=
  match fallback_id cds with
  | None => SystemExit cds 1
  | Some _ => KeyError "translation"
  end.

(** The gene that a normaliser builds from a coding feature: coordinates of
    the feature, coding strand, no domain yet. *)
Definition gene_of_feature (record : GbRecord) (cds : Feature) (g : Gene) : Prop :=
  g_source g = record ∧ g_start g = f_start cds ∧ g_end g = f_end cds ∧
  g_strand g = Coding ∧ p_domains (g_protein g) = [] ∧
  qualifier "translation" cds = Some (p_seq (g_protein g)).

(** ** Missing representatives (lines 222-223) *)

(** [{ cluster.id for cluster in all_clusters }] *)
Definition all_clusters_set (all_clusters : list Cluster) : gset string :=
  list_to_set (c_id <$> all_clusters).

(** [len(representative_ids.difference(all_clusters_set))], the count that
    the script reports. *)
Definition missing (reps : gset string) (all_clusters : list Cluster) : nat :=
  size (reps ∖ all_clusters_set all_clusters).

(** ** Vocabulary of the statements about rebuilt clusters *)

(** The source record name of the first gene of a cluster. *)
Definition cluster_source (c : Cluster) : string :=
  from_option source_name "" (head (c_genes c)).


(** The coding features of a record. *)
Definition coding (record : GbRecord) : list Feature :=
  filter is_CDS (r_features record).

(** ** Sample inputs *)

Module Sample.

Definition cds_locus : Feature :=
  mkFeature "CDS" 0 300
    [("gene", "abcA"); ("locus_tag", "LT_0001"); ("protein_id", "WP_1.1");
     ("translation", "MKV")].

Definition cds_protein : Feature :=
  mkFeature "CDS" 400 700 [("protein_id", "WP_2.1"); ("gene", "abcB");
                           ("translation", "MAL")].

Definition cds_gene : Feature :=
  mkFeature "CDS" 800 950 [("gene", "abcC"); ("translation", "MTT")].

Definition cds_anonymous : Feature :=
  mkFeature "CDS" 1000 1200 [("product", "hypothetical"); ("translation", "MQQ")].

Definition cds_untranslated : Feature :=
  mkFeature "CDS" 1300 1500 [("locus_tag", "LT_0002"); ("pseudo", "")].

Definition source_feature : Feature :=
  mkFeature "source" 0 2000 [("organism", "Escherichia coli")].

Definition mibig : GbRecord :=
  mkRecord "BGC0000001.1" [source_feature; cds_locus; cds_protein; cds_gene].

Definition region : GbRecord :=
  mkRecord "NZ_CP1.region001" [source_feature; cds_locus].

Definition gecco_cluster : GbRecord :=
  mkRecord "NZ_CP1_cluster_1" [source_feature; cds_locus; cds_anonymous].

Definition gecco_other : GbRecord :=
  mkRecord "NZ_CP2_cluster_1" [cds_gene].

Definition gecco_bgc : GbRecord := mkRecord "BGC0000001.1" [].

Definition anonymous_region : GbRecord :=
  mkRecord "NZ_CP3.region001" [cds_locus; cds_anonymous; cds_gene].

Definition broken_region : GbRecord :=
  mkRecord "NZ_CP4.region001" [cds_gene; cds_untranslated].

Definition gcfs : list (string * cell) :=
  [("BGC0000001", Str "GCF_02"); ("NZ_CP1_cluster_1", Str "GCF_01");
   ("NZ_CP1.region001", Str "GCF_03")].


#[warnings="-inexact-float"]
Definition hits (g : Gene) : list Domain :=
  if decide (p_id (g_protein g) = "LT_0001")
  then [mkDomain "PF00005" 1e-9; mkDomain "PF00001" 3e-3; mkDomain "PF00005" 1e-20]
  else [mkDomain "PF00072" 1e-4; mkDomain "PF00001" 1e-6].

(** The clusters ingested from the sample sources, annotated by [hits]. *)
Definition annotated_clusters : list Cluster :=
  match clusters (representative_ids gcfs)
          [[mibig]; [region; anonymous_region]] [[gecco_cluster; gecco_other]] with
  | Ok cs => annotate hits cs
  | Raise _ => []
  end.

Definition annotated_genes : list Gene := genes_of annotated_clusters.

(** A composition that counts the occurrences of each name. *)
Definition counts (c : Cluster) (all_possible : list string) : res (list nat) :=
  Ok ((λ n, length (filter (λ m, m = n) (domain_names [c]))) <$> all_possible).

(** A composition that runs out of memory. *)
Definition exhausted (c : Cluster) (all_possible : list string) : res (list nat) :=
  Raise (External "MemoryError").

Definition empty_fs : FS (list nat) := mkFS ∅ ∅.

(** The directories on the way to a relative path made of plain segments:
    its parents, outermost first, then the path. *)
Fixpoint ancestors (seen rest : string) : list string :=
  match rest with
  | EmptyString => [seen]
  | String c rest' =>
      (if Ascii.eqb c "/" && negb (String.eqb seen "") then [seen] else []) ++
      ancestors (seen +:+ String c EmptyString) rest'
  end.

Fixpoint mkdirs (ds : list string) : io (list nat) () := λ fs,
  match ds with
  | [] => (Ok (), fs)
  | d :: ds' =>
      match files fs !! d, ds' with
      | Some _, [] => (Raise (FileExistsError d), fs)
      | Some _, d' :: _ => (Raise (NotADirectoryError d'), fs)
      | None, _ => mkdirs ds' (mkFS ({[d]} ∪ dirs fs) (files fs))
      end
  end.

(** [os.makedirs(path, exist_ok=True)] on such a path, where a directory
    can be created unless a file is in the way. *)
Definition makedirs (path : string) : io (list nat) () :=
  if decide (path = "") then lift (Raise (FileNotFoundError path))
  else mkdirs (ancestors "" path).

(** An operating system on which every write goes through. *)
Definition reliable (call : syscall) (fs : FS (list nat))
    : option (exn Feature * FS (list nat)) := None.

Fixpoint insert_int {A} (x : Z * A) (l : list (Z * A)) : list (Z * A) :=
  match l with
  | [] => [x]
  | y :: l' => if (x.1 <=? y.1)%Z then x :: l else y :: insert_int x l'
  end.

(** The integer that Python compares for a cell of type [int] or [bool]. *)
Definition as_int (v : cell) : option Z :=
  match v with
  | Int z => Some z
  | Bool b => Some (Z.b2z b)
  | _ => None
  end.

(** [list.sort] on the keys of the sample tables, which hold no float:
    integers and booleans by value, ties in their previous order, and a
    [TypeError] when a string meets one of them. *)
Definition sort_other (keyed : list (cell * Cluster)) : res (list Cluster) :=
  match mapM (λ kx, z ← as_int kx.1; mret (z, kx.2)) keyed with
  | Some keyed => Ok (foldr insert_int [] keyed).*2
  | None =>
      if existsb (λ kx, match kx.1 with Float _ => true | _ => false end) keyed
      then Raise (External "float key")
      else Raise TypeError
  end.

(** The sample file system once [out] is made. *)
Definition out_fs : FS (list nat) := mkFS {["out"]} ∅.

Definition index : gmap string cell := bgc_to_gcf_index gcfs.

(** A label table whose [gcf_id] column reads as integers. *)
Definition numbered : gmap string cell :=
  bgc_to_gcf_index [("BGC0000001", Int 2); ("NZ_CP1_cluster_1", Int 1);
                    ("NZ_CP1.region001", Int 3)].

(** The clusters rebuilt from the annotated sample genes. *)
Definition all_clusters : list Cluster := regroup (filter_genes annotated_genes).


(** A region whose second coding feature has no translation and whose
    third has no identifier. *)
Definition twice_broken_region : GbRecord :=
  mkRecord "NZ_CP5.region001" [cds_gene; cds_untranslated; cds_anonymous].

End Sample.

(** * Properties *)

(** ** Facts about [rsplit] *)

Section RSplit.
Import PyStr.
Variable sep : ascii.

Lemma rsplit1_None s : rsplit1 sep s = None ↔ count sep s = 0.
Proof.
  induction s as [|c r IH]; simpl; [done|].
  destruct (rsplit1 sep r) as [[h t]|].
  - split; [done|]. intros Hc.
    assert (count sep r = 0) as Hr by lia.
    apply IH in Hr. done.
  - destruct (Ascii.eqb c sep); split; try done; try lia.
    intros _. destruct IH as [IH _]. rewrite IH; done.
Qed.

Lemma rsplit1_Some s h t :
  rsplit1 sep s = Some (h, t) →
  s = h +:+ String sep t ∧ count sep t = 0 ∧ count sep s = S (count sep h).
Proof.
  revert h t. induction s as [|c r IH]; simpl; [done|].
  intros h t. destruct (rsplit1 sep r) as [[h' t']|] eqn:Hr.
  - intros [= <- <-]. destruct (IH _ _ eq_refl) as (-> & Ht & Hc).
    simpl. split_and!; [done|done|]. rewrite Hc. lia.
  - destruct (Ascii.eqb_spec c sep) as [->|Hne]; [|done].
    intros [= <- <-]. apply rsplit1_None in Hr.
    simpl. rewrite Hr. done.
Qed.

Lemma rsplit1_head_length s h t :
  rsplit1 sep s = Some (h, t) → String.length h < String.length s.
Proof.
  revert h t. induction s as [|c r IH]; simpl; [done|].
  intros h t. destruct (rsplit1 sep r) as [[h' t']|] eqn:Hr.
  - intros [= <- <-]. simpl. specialize (IH _ _ eq_refl). lia.
  - destruct (Ascii.eqb c sep); [|done]. intros [= <- <-]. simpl. lia.
Qed.

Lemma rsplit1_head_fixed s : rsplit1_head sep s = s ↔ count sep s = 0.
Proof.
  unfold rsplit1_head. destruct (rsplit1 sep s) as [[h t]|] eqn:Hs.
  - pose proof (rsplit1_head_length _ _ _ Hs) as Hlen.
    apply rsplit1_Some in Hs as (_ & _ & Hc).
    split; [|lia]. intros ->. lia.
  - apply rsplit1_None in Hs. done.
Qed.

End RSplit.

Lemma startswith_app s p :
  PyStr.startswith s p = true ↔ ∃ r, s = p +:+ r.
Proof.
  unfold PyStr.startswith. revert s.
  induction p as [|a p IH]; intros [|b s]; cbn [String.prefix String.append].
  - split; [intros _; by exists ""|done].
  - split; [intros _; by exists (String b s)|done].
  - split; [done|intros [? [=]]].
  - destruct (ascii_dec a b) as [<-|Hne].
    + rewrite IH. split; intros [r Hr]; exists r; [by rewrite Hr|by injection Hr].
    + split; [done|]. intros [r [= ? _]]. done.
Qed.

Lemma rsplit1_BGC r h t :
  PyStr.rsplit1 "." ("BGC" +:+ r) = Some (h, t) →
  PyStr.startswith h "BGC" = true.
Proof.
  change ("BGC" +:+ r) with (String "B" (String "G" (String "C" r))).
  simpl. destruct (PyStr.rsplit1 "." r) as [[h' t']|]; [|done].
  intros [= <- <-]. apply startswith_app. by exists h'.
Qed.

(** C1 (amended): canonicalising twice agrees with canonicalising once
    exactly for the identifiers that do not start with [BGC] or contain at
    most one ['.']. *)
Theorem canonical_idempotent_iff (x : string) :
  canonical (canonical x) = canonical x ↔
  PyStr.startswith x "BGC" = false ∨ PyStr.count "." x ≤ 1.
Proof.
  unfold canonical at 2 3.
  destruct (PyStr.startswith x "BGC") eqn:Hx.
  - apply startswith_app in Hx as [r ->].
    unfold PyStr.rsplit1_head.
    destruct (PyStr.rsplit1 "." ("BGC" +:+ r)) as [[h t]|] eqn:Hs.
    + pose proof (rsplit1_BGC _ _ _ Hs) as Hh.
      apply rsplit1_Some in Hs as (_ & _ & Hc).
      unfold canonical. rewrite Hh, rsplit1_head_fixed, Hc.
      split; [intros ->; right; lia|intros [?|?]; [done|lia]].
    + apply rsplit1_None in Hs.
      unfold canonical. replace (PyStr.startswith _ _) with true
        by (symmetry; apply startswith_app; by exists r).
      rewrite rsplit1_head_fixed. split; [intros ->; right; lia|done].
  - unfold canonical. rewrite Hx. split; [by left|done].
Qed.

(** C1 (as stated) fails: a [BGC] identifier with two dots loses one
    segment at each application. *)
Lemma canonical_not_idempotent :
  canonical "BGC0000001.1.gbk" = "BGC0000001.1" ∧
  canonical (canonical "BGC0000001.1.gbk") = "BGC0000001" ∧
  ¬ (∀ x, canonical (canonical x) = canonical x).
Proof.
  split_and!; [done|done|].
  intros H. specialize (H "BGC0000001.1.gbk"). discriminate H.
Qed.

Section ResultFacts.
Context {P A B : Type}.
Implicit Types (f : A → result P B) (l : list A).

Lemma mapM_result_nil f : mapM f [] = Ok [].
Proof. done. Qed.

Lemma mapM_result_cons f x l :
  mapM f (x :: l) =
  match f x with
  | Ok y => match mapM f l with Ok ys => Ok (y :: ys) | Raise e => Raise e end
  | Raise e => Raise e
  end.
Proof.
  cbn. destruct (f x); [|done]. cbn. by destruct (mapM f l).
Qed.

Lemma mapM_result_Ok f l ys :
  mapM f l = Ok ys ↔ Forall2 (λ x y, f x = Ok y) l ys.
Proof.
  revert ys. induction l as [|x l IH]; intros ys.
  - rewrite mapM_result_nil. split.
    + intros [= <-]. constructor.
    + intros ->%Forall2_nil_inv_l. done.
  - rewrite mapM_result_cons. split.
    + destruct (f x) as [y|] eqn:Hx; [|done].
      destruct (mapM f l) as [ys'|] eqn:Hl; [|done].
      intros [= <-]. constructor; [done|]. by apply IH.
    + intros (y & ys' & Hx & Hl & ->)%Forall2_cons_inv_l.
      rewrite Hx. apply IH in Hl. by rewrite Hl.
Qed.

(** The first element on which [f] raises decides the outcome. *)
Lemma mapM_result_first_raise f pre x post ys e :
  mapM f pre = Ok ys → f x = Raise e → mapM f (pre ++ x :: post) = Raise e.
Proof.
  revert ys. induction pre as [|a pre IH]; intros ys.
  - intros _ Hx. cbn [app]. rewrite mapM_result_cons, Hx. done.
  - cbn [app]. rewrite !mapM_result_cons.
    destruct (f a); [|done]. destruct (mapM f pre) eqn:Hp; [|done].
    intros _ Hx. by rewrite (IH _ eq_refl Hx).
Qed.

Lemma mapM_result_raises f l x :
  x ∈ l → raises (f x) → raises (mapM f l).
Proof.
  intros Hin [e He]. induction l as [|a l IH]; [by apply elem_of_nil in Hin|].
  rewrite mapM_result_cons. apply elem_of_cons in Hin as [<-|Hin].
  - rewrite He. by exists e.
  - destruct (f a) as [y|e']; [|by exists e'].
    destruct (IH Hin) as [e' ->]. by exists e'.
Qed.

Lemma mapM_result_total f l :
  (∀ x, x ∈ l → ∃ y, f x = Ok y) → ∃ ys, mapM f l = Ok ys.
Proof.
  induction l as [|a l IH]; intros Hf; [by exists []|].
  rewrite mapM_result_cons.
  destruct (Hf a) as [y ->]; [left|].
  destruct IH as [ys ->]; [intros; apply Hf; by right|]. by eexists.
Qed.
End ResultFacts.

(** ** Qualifier dictionaries *)

Lemma to_dict_acc qs (d : gmap string (list string)) k :
  fold_left (λ d kv, <[kv.1 := default [] (d !! kv.1) ++ [kv.2]]> d) qs d !! k =
  match values k qs with
  | [] => d !! k
  | vs => Some (default [] (d !! k) ++ vs)
  end.
Proof.
  revert d. induction qs as [|[k' v] qs IH]; intros d; [done|].
  cbn [fold_left]. rewrite IH. unfold values. rewrite filter_cons. cbn [fst snd].
  destruct (decide (k' = k)) as [->|Hne].
  - rewrite lookup_insert_eq. cbn.
    destruct ((filter _ qs).*2) as [|w ws]; [done|].
    by rewrite <-app_assoc.
  - rewrite lookup_insert_ne by done. done.
Qed.

Lemma to_dict_lookup qs k :
  to_dict qs !! k = match values k qs with [] => None | vs => Some vs end.
Proof. unfold to_dict. rewrite to_dict_acc, lookup_empty. by destruct (values k qs). Qed.

Lemma contains_to_dict cds k :
  contains (to_dict (f_qualifiers cds)) k = bool_decide (is_Some (qualifier k cds)).
Proof.
  unfold contains, qualifier. rewrite to_dict_lookup.
  by destruct (values k (f_qualifiers cds)).
Qed.

(** A list stored by [to_dict] is never empty: [d[k][0]] raises [KeyError]
    or returns the first value. *)
Lemma getitem0_to_dict cds k :
  getitem0 (to_dict (f_qualifiers cds)) k =
  match qualifier k cds with
  | Some v => Ok v
  | None => Raise (KeyError k)
  end.
Proof.
  unfold getitem0, qualifier. rewrite to_dict_lookup.
  by destruct (values k (f_qualifiers cds)).
Qed.

Lemma region_gene_spec record cds :
  region_gene record cds =
  match fallback_id cds with
  | None => Raise (SystemExit cds 1)
  | Some id_ =>
      match qualifier "translation" cds with
      | None => Raise (KeyError "translation")
      | Some seq =>
          Ok (mkGene record (f_start cds) (f_end cds) Coding (mkProtein id_ seq []))
      end
  end.
Proof.
  unfold region_gene, fallback_id. cbv zeta.
  rewrite !contains_to_dict, !getitem0_to_dict.
  destruct (qualifier "locus_tag" cds) as [v1|]; cbn.
  { by destruct (qualifier "translation" cds). }
  destruct (qualifier "protein_id" cds) as [v2|]; cbn.
  { by destruct (qualifier "translation" cds). }
  destruct (qualifier "gene" cds) as [v3|]; cbn; [|done].
  by destruct (qualifier "translation" cds).
Qed.

Lemma record_gene_spec record cds :
  record_gene record cds =
  match qualifier "translation" cds with
  | None => Raise (KeyError "translation")
  | Some seq =>
      Ok (mkGene record (f_start cds) (f_end cds) Coding
            (mkProtein (r_name record) seq []))
  end.
Proof.
  unfold record_gene. cbv zeta. rewrite getitem0_to_dict.
  by destruct (qualifier "translation" cds).
Qed.

(** ** The ingestion loops *)

Lemma foldM_concat {P A B} (f : B → A → result P B) (ls : list (list A)) acc :
  foldM (foldM f) acc ls = foldM f acc (concat ls).
Proof.
  revert acc. induction ls as [|l ls IH]; intros acc; [done|].
  cbn [foldM concat]. revert acc. induction l as [|x l IHl]; intros acc; cbn.
  - apply IH.
  - destruct (f acc x); [apply IHl|done].
Qed.

Section FilterLoop.
Context {P A B : Type} (keep : A → Prop) `{!∀ x, Decision (keep x)}.
Context (norm : A → result P B) (step : list B → A → result P (list B)).

(** [for x in l: if keep(x): acc.append(norm(x))] *)
Hypothesis step_unfold : ∀ acc x,
  step acc x = if decide (keep x) then y ← norm x; mret (acc ++ [y]) else mret acc.

Lemma foldM_append_step l acc :
  foldM step acc l =
  match mapM norm (filter keep l) with
  | Ok ys => Ok (acc ++ ys)
  | Raise e => Raise e
  end.
Proof using step_unfold.
  revert acc. induction l as [|x l IH]; intros acc.
  - cbn. by rewrite app_nil_r.
  - cbn [foldM]. rewrite filter_cons, step_unfold.
    destruct (decide (keep x)).
    + rewrite mapM_result_cons. destruct (norm x) as [y|e]; cbn; [|done].
      rewrite IH. destruct (mapM norm (filter keep l)); [|done].
      by rewrite <-app_assoc.
    + cbn. apply IH.
Qed.
End FilterLoop.

Lemma antismash_ingest_filter reps AS_RECORDS :
  antismash_ingest reps AS_RECORDS =
  mapM (λ record, region_to_cluster record (canonical (r_name record)))
       (filter (λ record, canonical (r_name record) ∈ reps) (concat AS_RECORDS)).
Proof.
  unfold antismash_ingest. rewrite foldM_concat.
  rewrite (foldM_append_step (λ record, canonical (r_name record) ∈ reps)
    (λ record, region_to_cluster record (canonical (r_name record)))) by done.
  by destruct (mapM _ _).
Qed.

Lemma gecco_ingest_filter reps GECCO_RECORDS :
  gecco_ingest reps GECCO_RECORDS =
  mapM record_to_cluster
       (filter (λ record, r_name record ∈ reps) (concat GECCO_RECORDS)).
Proof.
  unfold gecco_ingest. rewrite foldM_concat.
  rewrite (foldM_append_step (λ record, r_name record ∈ reps) record_to_cluster)
    by done.
  by destruct (mapM _ _).
Qed.

Lemma clusters_Ok reps AS_RECORDS GECCO_RECORDS cs :
  clusters reps AS_RECORDS GECCO_RECORDS = Ok cs ↔
  ∃ gs as_, gecco_ingest reps GECCO_RECORDS = Ok gs ∧
            antismash_ingest reps AS_RECORDS = Ok as_ ∧ cs = gs ++ as_.
Proof.
  unfold clusters. destruct (antismash_ingest _ _) as [as_|e]; cbn.
  - destruct (gecco_ingest _ _) as [gs|e]; cbn.
    + split; [intros [= <-]; by eexists _, _|].
      intros (? & ? & [= <-] & [= <-] & ->). done.
    + split; [done|]. by intros (? & ? & [=] & _).
  - split; [done|]. by intros (? & ? & _ & [=] & _).
Qed.

Lemma region_to_cluster_Ok record bgc_id c :
  region_to_cluster record bgc_id = Ok c ↔
  ∃ genes, mapM (region_gene record) (filter is_CDS (r_features record)) = Ok genes ∧
           c = mkCluster bgc_id genes.
Proof.
  unfold region_to_cluster. destruct (mapM _ _) as [genes|e]; cbn.
  - split; [intros [= <-]; by eexists|]. by intros (? & [= <-] & ->).
  - split; [done|]. by intros (? & [=] & _).
Qed.

Lemma record_to_cluster_Ok record c :
  record_to_cluster record = Ok c ↔
  ∃ genes, mapM (record_gene record) (filter is_CDS (r_features record)) = Ok genes ∧
           c = mkCluster (r_name record) genes.
Proof.
  unfold record_to_cluster. destruct (mapM _ _) as [genes|e]; cbn.
  - split; [intros [= <-]; by eexists|]. by intros (? & [= <-] & ->).
  - split; [done|]. by intros (? & [=] & _).
Qed.

Lemma Forall2_elem_of_l {A B} (R : A → B → Prop) l k x :
  Forall2 R l k → x ∈ l → ∃ y, y ∈ k ∧ R x y.
Proof.
  induction 1 as [|a b l k Hab _ IH]; intros Hin; [by apply elem_of_nil in Hin|].
  apply elem_of_cons in Hin as [->|Hin].
  - exists b. split; [left|done].
  - destruct (IH Hin) as (y & ? & ?). exists y. split; [by right|done].
Qed.

Lemma Forall2_elem_of_r {A B} (R : A → B → Prop) l k y :
  Forall2 R l k → y ∈ k → ∃ x, x ∈ l ∧ R x y.
Proof.
  induction 1 as [|a b l k Hab _ IH]; intros Hin; [by apply elem_of_nil in Hin|].
  apply elem_of_cons in Hin as [->|Hin].
  - exists a. split; [left|done].
  - destruct (IH Hin) as (x & ? & ?). exists x. split; [by right|done].
Qed.

(** Every merged cluster is keyed by a member of the representative set. *)
Lemma clusters_ids reps AS_RECORDS GECCO_RECORDS cs c :
  clusters reps AS_RECORDS GECCO_RECORDS = Ok cs → c ∈ cs → c_id c ∈ reps.
Proof.
  intros (gs & as_ & Hg & Ha & ->)%clusters_Ok Hc.
  rewrite gecco_ingest_filter, mapM_result_Ok in Hg.
  rewrite antismash_ingest_filter, mapM_result_Ok in Ha.
  apply elem_of_app in Hc as [Hc|Hc].
  - destruct (Forall2_elem_of_r _ _ _ _ Hg Hc) as (r & Hr & Hn).
    apply list_elem_of_filter in Hr as [Hr _].
    apply record_to_cluster_Ok in Hn as (? & _ & ->). done.
  - destruct (Forall2_elem_of_r _ _ _ _ Ha Hc) as (r & Hr & Hn).
    apply list_elem_of_filter in Hr as [Hr _].
    apply region_to_cluster_Ok in Hn as (? & _ & ->). done.
Qed.

Lemma raises_bind {P A B} (m : result P A) (f : A → result P B) :
  raises m → raises (m ≫= f).
Proof. intros [e ->]. by exists e. Qed.

Lemma clusters_raises_antismash reps AS_RECORDS GECCO_RECORDS record :
  record ∈ concat AS_RECORDS → canonical (r_name record) ∈ reps →
  raises (region_to_cluster record (canonical (r_name record))) →
  raises (clusters reps AS_RECORDS GECCO_RECORDS).
Proof.
  intros Hin Hrep Hr. apply raises_bind. rewrite antismash_ingest_filter.
  apply mapM_result_raises with record; [|done].
  by apply list_elem_of_filter.
Qed.

Lemma clusters_raises_gecco reps AS_RECORDS GECCO_RECORDS record :
  record ∈ concat GECCO_RECORDS → r_name record ∈ reps →
  raises (record_to_cluster record) →
  raises (clusters reps AS_RECORDS GECCO_RECORDS).
Proof.
  intros Hin Hrep Hr. unfold clusters.
  destruct (antismash_ingest _ _) as [as_|e]; [|by exists e]. cbn.
  apply raises_bind. rewrite gecco_ingest_filter.
  apply mapM_result_raises with record; [|done].
  by apply list_elem_of_filter.
Qed.

(** C3 (amended): a record of the antiSMASH family contributes a cluster
    to the merged collection iff its canonical identifier is in the
    representative set; a record of the GECCO family contributes one iff
    its record name, taken verbatim, is in the set; and every merged
    cluster comes from such a record. *)
Theorem representative_filtering reps AS_RECORDS GECCO_RECORDS cs :
  clusters reps AS_RECORDS GECCO_RECORDS = Ok cs →
  (∀ record, record ∈ concat AS_RECORDS →
     (∃ c, c ∈ cs ∧ region_to_cluster record (canonical (r_name record)) = Ok c) ↔
     canonical (r_name record) ∈ reps) ∧
  (∀ record, record ∈ concat GECCO_RECORDS →
     (∃ c, c ∈ cs ∧ record_to_cluster record = Ok c) ↔ r_name record ∈ reps) ∧
  (∀ c, c ∈ cs →
     (∃ record, record ∈ concat AS_RECORDS ∧
        region_to_cluster record (canonical (r_name record)) = Ok c) ∨
     (∃ record, record ∈ concat GECCO_RECORDS ∧ record_to_cluster record = Ok c)).
Proof.
  intros Hcs. pose proof (λ c, clusters_ids _ _ _ _ c Hcs) as Hids.
  apply clusters_Ok in Hcs as (gs & as_ & Hg & Ha & ->).
  rewrite gecco_ingest_filter, mapM_result_Ok in Hg.
  rewrite antismash_ingest_filter, mapM_result_Ok in Ha.
  split_and!.
  - intros record Hin. split.
    + intros (c & Hc & Hn). apply Hids in Hc.
      apply region_to_cluster_Ok in Hn as (? & _ & ->). done.
    + intros Hrep.
      destruct (Forall2_elem_of_l _ _ _ record Ha) as (c & Hc & Hn).
      { by apply list_elem_of_filter. }
      exists c. split; [|done]. apply elem_of_app. by right.
  - intros record Hin. split.
    + intros (c & Hc & Hn). apply Hids in Hc.
      apply record_to_cluster_Ok in Hn as (? & _ & ->). done.
    + intros Hrep.
      destruct (Forall2_elem_of_l _ _ _ record Hg) as (c & Hc & Hn).
      { by apply list_elem_of_filter. }
      exists c. split; [|done]. apply elem_of_app. by left.
  - intros c [Hc|Hc]%elem_of_app.
    + right. destruct (Forall2_elem_of_r _ _ _ _ Hg Hc) as (r & Hr & Hn).
      apply list_elem_of_filter in Hr as [_ Hr]. by exists r.
    + left. destruct (Forall2_elem_of_r _ _ _ _ Ha Hc) as (r & Hr & Hn).
      apply list_elem_of_filter in Hr as [_ Hr]. by exists r.
Qed.

Lemma representative_filtering_witness :
  ∃ cs,
    clusters (representative_ids Sample.gcfs)
      [[Sample.mibig]; [Sample.region; Sample.anonymous_region]]
      [[Sample.gecco_cluster; Sample.gecco_other]] = Ok cs ∧
    length cs = 3 ∧
    ((∃ c, c ∈ cs ∧ record_to_cluster Sample.gecco_other = Ok c) ↔
     r_name Sample.gecco_other ∈ representative_ids Sample.gcfs).
Proof.
  eexists. split; [vm_compute; reflexivity|]. split; [reflexivity|].
  refine (proj1 (proj2 (representative_filtering (representative_ids Sample.gcfs)
    [[Sample.mibig]; [Sample.region; Sample.anonymous_region]]
    [[Sample.gecco_cluster; Sample.gecco_other]] _ _)) Sample.gecco_other _).
  - vm_compute. reflexivity.
  - cbn. apply elem_of_cons. right. apply elem_of_cons. by left.
Defined.

(** C3 (as stated) fails for the GECCO family: the membership test at line
    151 uses the record name without the [BGC] truncation. *)
Lemma gecco_filter_uses_raw_name :
  canonical (r_name Sample.gecco_bgc) ∈ representative_ids Sample.gcfs ∧
  clusters (representative_ids Sample.gcfs) [] [[Sample.gecco_bgc]] = Ok [] ∧
  ¬ (∀ reps AS_RECORDS GECCO_RECORDS cs,
       clusters reps AS_RECORDS GECCO_RECORDS = Ok cs →
       ∀ record, record ∈ concat GECCO_RECORDS →
         (∃ c, c ∈ cs ∧ record_to_cluster record = Ok c) ↔
         canonical (r_name record) ∈ reps).
Proof.
  assert (canonical (r_name Sample.gecco_bgc) ∈ representative_ids Sample.gcfs)
    as Hin by (vm_compute; set_solver).
  assert (clusters (representative_ids Sample.gcfs) [] [[Sample.gecco_bgc]] = Ok [])
    as Hrun by (vm_compute; reflexivity).
  split_and!; [done|done|]. intros H.
  destruct (H _ _ _ _ Hrun Sample.gecco_bgc) as [_ Hc].
  { cbn. by left. }
  destruct (Hc Hin) as (c & Hnil & _). by apply elem_of_nil in Hnil.
Qed.

(** ** Failures of the normalisers *)

Lemma region_to_cluster_first_raise record bgc_id pre cds post genes e :
  filter is_CDS (r_features record) = pre ++ cds :: post →
  mapM (region_gene record) pre = Ok genes →
  region_gene record cds = Raise e →
  region_to_cluster record bgc_id = Raise e.
Proof.
  intros Hf Hpre Hcds. unfold region_to_cluster.
  by rewrite Hf, (mapM_result_first_raise _ _ _ _ _ _ Hpre Hcds).
Qed.

Lemma region_to_cluster_raises record bgc_id cds :
  cds ∈ r_features record → is_CDS cds → raises (region_gene record cds) →
  raises (region_to_cluster record bgc_id).
Proof.
  intros Hin Hcds Hr. apply raises_bind, mapM_result_raises with cds; [|done].
  by apply list_elem_of_filter.
Qed.

Lemma record_to_cluster_raises record cds :
  cds ∈ r_features record → is_CDS cds → raises (record_gene record cds) →
  raises (record_to_cluster record).
Proof.
  intros Hin Hcds Hr. apply raises_bind, mapM_result_raises with cds; [|done].
  by apply list_elem_of_filter.
Qed.

(** C9 (amended): [region_to_cluster], the normaliser of the antiSMASH
    family, names each gene after the locus tag if present, else the
    protein identifier, else the gene name; when a coding feature has none
    of them, and the features before it were normalised, the normaliser
    exits with status 1 after printing that feature, and so does any run
    that ingests the record. *)
Theorem region_identifier_fallback record cds :
  region_gene record cds =
    match fallback_id cds with
    | None => Raise (SystemExit cds 1)
    | Some id_ =>
        match qualifier "translation" cds with
        | None => Raise (KeyError "translation")
        | Some seq =>
            Ok (mkGene record (f_start cds) (f_end cds) Coding (mkProtein id_ seq []))
        end
    end ∧
  (∀ bgc_id pre post genes,
     filter is_CDS (r_features record) = pre ++ cds :: post →
     mapM (region_gene record) pre = Ok genes →
     fallback_id cds = None →
     region_to_cluster record bgc_id = Raise (SystemExit cds 1)) ∧
  (∀ reps AS_RECORDS GECCO_RECORDS,
     record ∈ concat AS_RECORDS → canonical (r_name record) ∈ reps →
     cds ∈ r_features record → is_CDS cds → fallback_id cds = None →
     raises (clusters reps AS_RECORDS GECCO_RECORDS)).
Proof.
  split_and!.
  - apply region_gene_spec.
  - intros bgc_id pre post genes Hf Hpre Hnone.
    apply (region_to_cluster_first_raise _ _ _ _ _ _ _ Hf Hpre).
    by rewrite region_gene_spec, Hnone.
  - intros reps AS_RECORDS GECCO_RECORDS Hin Hrep Hcds Hty Hnone.
    apply clusters_raises_antismash with record; [done..|].
    apply region_to_cluster_raises with cds; [done..|].
    rewrite region_gene_spec, Hnone. by eexists.
Qed.

Lemma region_identifier_fallback_witness :
  region_gene Sample.mibig Sample.cds_protein =
    Ok (mkGene Sample.mibig 400 700 Coding (mkProtein "WP_2.1" "MAL" [])) ∧
  region_to_cluster Sample.anonymous_region "NZ_CP3.region001" =
    Raise (SystemExit Sample.cds_anonymous 1) ∧
  raises (clusters {["NZ_CP3.region001"]} [[Sample.region; Sample.anonymous_region]] []).
Proof.
  split_and!.
  - exact (proj1 (region_identifier_fallback Sample.mibig Sample.cds_protein)).
  - refine (proj1 (proj2 (region_identifier_fallback Sample.anonymous_region
      Sample.cds_anonymous)) _ [Sample.cds_locus] [Sample.cds_gene] _ _ _ _);
      vm_compute; reflexivity.
  - refine (proj2 (proj2 (region_identifier_fallback Sample.anonymous_region
      Sample.cds_anonymous)) _ _ _ _ _ _ _ _).
    + cbn. apply elem_of_cons. right. apply elem_of_cons. by left.
    + vm_compute. set_solver.
    + cbn. apply elem_of_cons. right. apply elem_of_cons. by left.
    + reflexivity.
    + reflexivity.
Defined.

(** C9 (as stated) fails for [record_to_cluster], the normaliser of the
    GECCO family: it names every protein after the record and never looks
    at the identifier qualifiers, so it neither follows the chain nor fails
    on a feature without identifier. *)
Lemma record_to_cluster_ignores_identifiers :
  fallback_id Sample.cds_locus = Some "LT_0001" ∧
  record_gene Sample.gecco_cluster Sample.cds_locus =
    Ok (mkGene Sample.gecco_cluster 0 300 Coding
          (mkProtein "NZ_CP1_cluster_1" "MKV" [])) ∧
  fallback_id Sample.cds_anonymous = None ∧
  record_gene Sample.gecco_cluster Sample.cds_anonymous =
    Ok (mkGene Sample.gecco_cluster 1000 1200 Coding
          (mkProtein "NZ_CP1_cluster_1" "MQQ" [])) ∧
  ¬ (∀ record cds,
       record_gene record cds =
         match fallback_id cds with
         | None => Raise (SystemExit cds 1)
         | Some id_ =>
             match qualifier "translation" cds with
             | None => Raise (KeyError "translation")
             | Some seq =>
                 Ok (mkGene record (f_start cds) (f_end cds) Coding
                       (mkProtein id_ seq []))
             end
         end).
Proof.
  split_and!; [reflexivity..|].
  intros H. specialize (H Sample.gecco_cluster Sample.cds_anonymous).
  vm_compute in H. discriminate H.
Qed.

(** C10: a coding feature without [translation] qualifier makes both
    normalisers raise: [KeyError] in [record_to_cluster], and in
    [region_to_cluster] as soon as the feature passes the identifier
    chain; the normaliser of a record with such a feature raises, and so
    does every run that ingests the record. *)
Theorem missing_translation_fatal record cds :
  cds ∈ r_features record → is_CDS cds → qualifier "translation" cds = None →
  record_gene record cds = Raise (KeyError "translation") ∧
  (∀ id_, fallback_id cds = Some id_ →
     region_gene record cds = Raise (KeyError "translation")) ∧
  raises (record_to_cluster record) ∧
  (∀ bgc_id, raises (region_to_cluster record bgc_id)) ∧
  (∀ reps AS_RECORDS GECCO_RECORDS,
     record ∈ concat AS_RECORDS → canonical (r_name record) ∈ reps →
     raises (clusters reps AS_RECORDS GECCO_RECORDS)) ∧
  (∀ reps AS_RECORDS GECCO_RECORDS,
     record ∈ concat GECCO_RECORDS → r_name record ∈ reps →
     raises (clusters reps AS_RECORDS GECCO_RECORDS)).
Proof.
  intros Hin Hcds Hnone.
  assert (record_gene record cds = Raise (KeyError "translation")) as Hg
    by (by rewrite record_gene_spec, Hnone).
  assert (raises (region_gene record cds)) as Hr.
  { rewrite region_gene_spec, Hnone. destruct (fallback_id cds); by eexists. }
  assert (raises (record_to_cluster record)) as Hrec.
  { apply record_to_cluster_raises with cds; [done..|]. rewrite Hg. by eexists. }
  assert (∀ bgc_id, raises (region_to_cluster record bgc_id)) as Hreg.
  { intros bgc_id. by apply region_to_cluster_raises with cds. }
  split_and!; [done| |done|done| |].
  - intros id_ Hid. by rewrite region_gene_spec, Hid, Hnone.
  - intros reps AS_RECORDS GECCO_RECORDS Hrin Hrep.
    by apply clusters_raises_antismash with record.
  - intros reps AS_RECORDS GECCO_RECORDS Hrin Hrep.
    by apply clusters_raises_gecco with record.
Qed.

Lemma missing_translation_fatal_witness :
  region_gene Sample.broken_region Sample.cds_untranslated =
    Raise (KeyError "translation") ∧
  raises (record_to_cluster Sample.broken_region) ∧
  raises (region_to_cluster Sample.broken_region "NZ_CP4.region001").
Proof.
  assert (Sample.cds_untranslated ∈ r_features Sample.broken_region) as Hin.
  { cbn. apply elem_of_cons. right. apply elem_of_cons. by left. }
  destruct (missing_translation_fatal Sample.broken_region Sample.cds_untranslated
              Hin eq_refl eq_refl) as (_ & Hid & Hrec & Hreg & _).
  split_and!; [exact (Hid "LT_0002" eq_refl)|exact Hrec|apply Hreg].
Defined.

(** ** Stable sorting and grouping *)

Lemma elem_of_concat {A} (x : A) (ls : list (list A)) :
  x ∈ concat ls ↔ ∃ l, x ∈ l ∧ l ∈ ls.
Proof.
  induction ls as [|l ls IH]; cbn.
  - split; [by intros ?%elem_of_nil|by intros (? & _ & ?%elem_of_nil)].
  - rewrite elem_of_app, IH. split.
    + intros [Hx|(l' & ? & ?)]; [exists l; split; [done|left]|].
      exists l'. split; [done|by right].
    + intros (l' & Hx & [->|Hl']%elem_of_cons); [by left|]. right. by exists l'.
Qed.

Lemma string_leb_le (a b : string) : String.leb a b = true ↔ (a ≤ b)%string.
Proof. unfold String.le. by destruct (String.leb a b). Qed.

Lemma string_leb_false (a b : string) : String.leb a b = false → (b ≤ a)%string.
Proof.
  intros Hab. destruct (total String.le a b) as [H|H]; [|done].
  apply string_leb_le in H. congruence.
Qed.

Lemma StronglySorted_strict_NoDup (ks : list string) :
  StronglySorted (strict String.le) ks → NoDup ks.
Proof.
  induction 1 as [|k ks _ IH Hall]; constructor; [|done].
  intros Hin. rewrite Forall_forall in Hall.
  destruct (Hall _ Hin) as [? Hirr]. done.
Qed.

Section SortGroupFacts.
Context {A : Type} (key : A → string).
Implicit Types (x : A) (l : list A) (k : string).

Let key_le (x y : A) : Prop := (key x ≤ key y)%string.

Lemma insert_by_Permutation x l : insert_by key x l ≡ₚ x :: l.
Proof.
  induction l as [|y l IH]; cbn; [done|].
  destruct (String.leb (key x) (key y)); [done|].
  rewrite IH. apply Permutation_swap.
Qed.

Lemma sort_by_Permutation l : sort_by key l ≡ₚ l.
Proof.
  induction l as [|x l IH]; cbn; [done|].
  by rewrite insert_by_Permutation, IH.
Qed.

Lemma insert_by_sorted x l :
  StronglySorted key_le l → StronglySorted key_le (insert_by key x l).
Proof.
  induction 1 as [|y l Hl IH Hall]; cbn.
  - repeat constructor.
  - destruct (String.leb (key x) (key y)) eqn:Hxy.
    + apply string_leb_le in Hxy. constructor; [by constructor|].
      constructor; [done|].
      eapply Forall_impl; [exact Hall|]. intros z Hz.
      unfold key_le in *. by etrans.
    + apply string_leb_false in Hxy. constructor; [done|].
      rewrite insert_by_Permutation. by constructor.
Qed.

Lemma sort_by_sorted l : StronglySorted key_le (sort_by key l).
Proof.
  induction l as [|x l IH]; cbn; [constructor|]. by apply insert_by_sorted.
Qed.

(** Stability: the elements of one key keep their relative order. *)
Lemma filter_insert_by x l k :
  filter (λ y, key y = k) (insert_by key x l) = filter (λ y, key y = k) (x :: l).
Proof.
  induction l as [|y l IH]; cbn; [done|].
  destruct (String.leb (key x) (key y)) eqn:Hxy; [done|].
  rewrite filter_cons, IH, !filter_cons.
  destruct (decide (key y = k)) as [Hy|Hy]; [|done].
  destruct (decide (key x = k)) as [Hx|Hx]; [|done].
  exfalso. rewrite Hx, <-Hy in Hxy.
  assert (String.leb (key y) (key y) = true) by (by apply string_leb_le).
  congruence.
Qed.

Lemma filter_sort_by l k :
  filter (λ y, key y = k) (sort_by key l) = filter (λ y, key y = k) l.
Proof.
  induction l as [|x l IH]; [done|].
  change (sort_by key (x :: l)) with (insert_by key x (sort_by key l)).
  by rewrite filter_insert_by, !filter_cons, IH.
Qed.

Lemma groupby_concat l : concat (groupby key l).*2 = l.
Proof.
  induction l as [|x l IH]; cbn; [done|].
  destruct (groupby key l) as [|[k g] gs]; cbn in *.
  - by rewrite <-IH.
  - destruct (decide (key x = k)); cbn; by rewrite <-IH.
Qed.

(** Every run is non-empty and has the key of its elements. *)
Lemma groupby_runs l :
  Forall (λ run, run.2 ≠ [] ∧ Forall (λ x, key x = run.1) run.2) (groupby key l).
Proof.
  induction l as [|x l IH]; cbn; [constructor|].
  destruct (groupby key l) as [|[k g] gs]; cbn in *.
  - repeat constructor; done.
  - apply Forall_cons in IH as [[Hne Hg] Hgs].
    destruct (decide (key x = k)).
    + constructor; [|done]. cbn. split; [done|]. by constructor.
    + constructor; [cbn; split; [done|by repeat constructor]|].
      constructor; [|done]. done.
Qed.

Lemma groupby_key_elem l k :
  k ∈ (groupby key l).*1 ↔ ∃ x, x ∈ l ∧ key x = k.
Proof.
  assert (∀ x, x ∈ l ↔ x ∈ concat (groupby key l).*2) as Hl
    by (by rewrite groupby_concat).
  pose proof (groupby_runs l) as Hruns. rewrite Forall_forall in Hruns.
  split.
  - intros ([k' g] & -> & Hin)%list_elem_of_fmap.
    destruct (Hruns _ Hin) as [Hne Hg]. cbn in *.
    destruct g as [|x g]; [done|]. exists x. split.
    + apply Hl, elem_of_concat. exists (x :: g). split; [left|].
      apply list_elem_of_fmap. by exists (k', x :: g).
    + by apply Forall_cons in Hg as [? _].
  - intros (x & Hx & Hk).
    apply Hl, elem_of_concat in Hx as (g & Hxg & Hg).
    apply list_elem_of_fmap in Hg as ([k' g'] & -> & Hin).
    destruct (Hruns _ Hin) as [_ Hg]. cbn in *.
    rewrite Forall_forall in Hg. rewrite <-Hk, (Hg _ Hxg).
    apply list_elem_of_fmap. by exists (k', g').
Qed.

Lemma groupby_keys_sorted l :
  StronglySorted key_le l → StronglySorted (strict String.le) (groupby key l).*1.
Proof.
  induction 1 as [|x l Hl IH Hall]; cbn; [constructor|].
  assert (Forall (λ k, (key x ≤ k)%string) (groupby key l).*1) as Hkeys.
  { apply Forall_forall. intros k (y & Hy & <-)%groupby_key_elem.
    rewrite Forall_forall in Hall. by apply Hall. }
  destruct (groupby key l) as [|[k g] gs]; cbn in *.
  - repeat constructor.
  - destruct (decide (key x = k)) as [Heq|Hne]; cbn; [done|].
    apply StronglySorted_inv in IH as [IHs IHall].
    apply Forall_cons in Hkeys as [Hk Hkeys].
    constructor; [by constructor|].
    assert (strict String.le (key x) k) as Hlt by (by apply strict_spec_alt).
    constructor; [done|].
    eapply Forall_impl; [exact IHall|]. intros k' Hk'. cbn in Hk'.
    by etrans.
Qed.

Lemma filter_key_same g k :
  Forall (λ x, key x = k) g → filter (λ y, key y = k) g = g.
Proof.
  induction 1 as [|x g Hx _ IH]; [done|].
  rewrite filter_cons, decide_True by done. by rewrite IH.
Qed.

Lemma filter_key_other g k k' :
  k ≠ k' → Forall (λ x, key x = k') g → filter (λ y, key y = k) g = [].
Proof.
  intros Hne. induction 1 as [|x g Hx _ IH]; [done|].
  rewrite filter_cons, decide_False by congruence. done.
Qed.

Lemma filter_key_absent (runs : list (string * list A)) k :
  k ∉ runs.*1 → Forall (λ run, Forall (λ x, key x = run.1) run.2) runs →
  filter (λ y, key y = k) (concat runs.*2) = [].
Proof.
  intros Hk. induction 1 as [|[k1 g1] runs Hg1 _ IH]; [done|].
  cbn in *. apply not_elem_of_cons in Hk as [Hne Hk].
  rewrite filter_app, (filter_key_other _ _ _ Hne Hg1), IH; done.
Qed.

(** In a list of runs with pairwise distinct keys, the elements of key [k]
    are the run of [k]. *)
Lemma filter_key_runs (runs : list (string * list A)) k g :
  NoDup runs.*1 → Forall (λ run, Forall (λ x, key x = run.1) run.2) runs →
  (k, g) ∈ runs → filter (λ y, key y = k) (concat runs.*2) = g.
Proof.
  intros Hnd Hruns. revert Hnd.
  induction Hruns as [|[k1 g1] runs Hg1 Hruns IH]; intros Hnd Hin.
  { by apply elem_of_nil in Hin. }
  cbn in *. apply NoDup_cons in Hnd as [Hk1 Hnd]. rewrite filter_app.
  apply elem_of_cons in Hin as [[= -> ->]|Hin].
  - rewrite (filter_key_same _ _ Hg1), (filter_key_absent _ _ Hk1 Hruns).
    by rewrite app_nil_r.
  - assert (k ≠ k1) as Hne.
    { intros ->. apply Hk1, list_elem_of_fmap. by exists (k1, g). }
    rewrite (filter_key_other _ _ _ Hne Hg1). by apply IH.
Qed.

Lemma groupby_sort_keys_NoDup l : NoDup (groupby key (sort_by key l)).*1.
Proof. apply StronglySorted_strict_NoDup, groupby_keys_sorted, sort_by_sorted. Qed.

Lemma groupby_runs_keys l :
  Forall (λ run, Forall (λ x, key x = run.1) run.2) (groupby key l).
Proof. eapply Forall_impl; [apply groupby_runs|]. by intros ? [_ ?]. Qed.

(** Sorting and grouping collects, for each key, the elements of that key
    in their original order. *)
Lemma groupby_sort_run l k g :
  (k, g) ∈ groupby key (sort_by key l) → g = filter (λ y, key y = k) l.
Proof.
  intros Hin. rewrite <-filter_sort_by, <-(groupby_concat (sort_by key l)).
  symmetry. apply filter_key_runs;
    [apply groupby_sort_keys_NoDup|apply groupby_runs_keys|done].
Qed.

(** Regrouping: if the list is the concatenation of blocks with pairwise
    distinct keys, each block made of elements of its key, sorting and
    grouping returns the non-empty blocks. *)
Lemma groupby_sort_blocks (blocks : list (string * list A)) :
  NoDup blocks.*1 →
  Forall (λ b, Forall (λ x, key x = b.1) b.2) blocks →
  groupby key (sort_by key (concat blocks.*2)) ≡ₚ filter (λ b, b.2 ≠ []) blocks.
Proof.
  intros Hnd Hb. apply NoDup_Permutation.
  - eapply NoDup_fmap_1, groupby_sort_keys_NoDup.
  - apply NoDup_filter. by eapply NoDup_fmap_1.
  - intros [k g]. rewrite list_elem_of_filter. cbn. split.
    + intros Hin. pose proof (groupby_sort_run _ _ _ Hin) as ->.
      pose proof (groupby_runs (sort_by key (concat blocks.*2))) as Hruns.
      rewrite Forall_forall in Hruns. destruct (Hruns _ Hin) as [Hne _].
      cbn in Hne. split; [done|].
      destruct (filter _ _) as [|x g'] eqn:Hf; [done|].
      assert (x ∈ filter (λ y, key y = k) (concat blocks.*2)) as Hx
        by (rewrite Hf; left).
      apply list_elem_of_filter in Hx as [Hkx Hx].
      apply elem_of_concat in Hx as (g0 & Hxg & Hg0).
      apply list_elem_of_fmap in Hg0 as ([k0 g0'] & -> & Hin0). cbn in Hxg.
      assert (k0 = k) as ->.
      { rewrite Forall_forall in Hb. specialize (Hb _ Hin0). cbn in Hb.
        rewrite Forall_forall in Hb. by rewrite <-(Hb _ Hxg). }
      rewrite <-Hf. by rewrite (filter_key_runs _ _ _ Hnd Hb Hin0).
    + intros [Hne Hin]. destruct g as [|x g]; [done|].
      assert (key x = k) as Hkx.
      { rewrite Forall_forall in Hb. specialize (Hb _ Hin). cbn in Hb.
        by apply Forall_cons in Hb as [? _]. }
      assert (k ∈ (groupby key (sort_by key (concat blocks.*2))).*1) as Hk.
      { apply groupby_key_elem. exists x. split; [|done].
        rewrite sort_by_Permutation. apply elem_of_concat.
        exists (x :: g). split; [left|]. apply list_elem_of_fmap.
        by exists (k, x :: g). }
      apply list_elem_of_fmap in Hk as ([k' g'] & -> & Hin'). cbn in *.
      pose proof (groupby_sort_run _ _ _ Hin') as Hg'.
      rewrite (filter_key_runs _ _ _ Hnd Hb Hin) in Hg'. by subst g'.
Qed.

End SortGroupFacts.

(** ** Significance filter *)







(** ** Provenance of the merged genes *)

Lemma region_to_cluster_owned record bgc_id c :
  region_to_cluster record bgc_id = Ok c → owned_by record c.
Proof.
  intros (genes & Hg & ->)%region_to_cluster_Ok. unfold owned_by. cbn.
  apply mapM_result_Ok in Hg. induction Hg as [|f g fs gs Hfg _ IH]; [done|].
  constructor; [|done]. rewrite region_gene_spec in Hfg.
  destruct (fallback_id f); [|done].
  destruct (qualifier "translation" f); [|done]. by injection Hfg as <-.
Qed.

Lemma record_to_cluster_owned record c :
  record_to_cluster record = Ok c → owned_by record c.
Proof.
  intros (genes & Hg & ->)%record_to_cluster_Ok. unfold owned_by. cbn.
  apply mapM_result_Ok in Hg. induction Hg as [|f g fs gs Hfg _ IH]; [done|].
  constructor; [|done]. rewrite record_gene_spec in Hfg.
  destruct (qualifier "translation" f); [|done]. by injection Hfg as <-.
Qed.

Lemma clusters_owned reps AS_RECORDS GECCO_RECORDS cs :
  clusters reps AS_RECORDS GECCO_RECORDS = Ok cs →
  Forall2 owned_by (ingested_records reps AS_RECORDS GECCO_RECORDS) cs.
Proof.
  intros (gs & as_ & Hg & Ha & ->)%clusters_Ok.
  rewrite gecco_ingest_filter, mapM_result_Ok in Hg.
  rewrite antismash_ingest_filter, mapM_result_Ok in Ha.
  apply Forall2_app.
  - eapply Forall2_impl; [exact Hg|]. apply record_to_cluster_owned.
  - eapply Forall2_impl; [exact Ha|]. intros r c. apply region_to_cluster_owned.
Qed.

Lemma annotation_owned records cs cs' :
  Forall2 owned_by records cs → annotation cs cs' → Forall2 owned_by records cs'.
Proof.
  intros Ho. revert cs'. induction Ho as [|r c rs cs Hrc _ IH]; intros cs' Ha.
  - apply Forall2_nil_inv_l in Ha as ->. constructor.
  - apply Forall2_cons_inv_l in Ha as (c' & cs'' & [_ Hg] & Ha & ->).
    constructor; [|by apply IH].
    unfold owned_by in *. clear -Hrc Hg.
    induction Hg as [|g g' gs gs' [ds ->] _ IH']; [done|].
    apply Forall_cons in Hrc as [? ?]. constructor; [done|by apply IH'].
Qed.

Lemma annotation_annotate hits cs : annotation cs (annotate hits cs).
Proof.
  induction cs as [|c cs IH]; constructor; [|done].
  split; [done|]. cbn. induction (c_genes c); constructor; [by eexists|done].
Qed.

Lemma source_groups_facts records cs :
  Forall2 owned_by records cs →
  (source_groups records cs).*1 = r_name <$> records ∧
  concat (source_groups records cs).*2 = filter_genes (genes_of cs) ∧
  Forall (λ b, Forall (λ g, source_name g = b.1) b.2) (source_groups records cs).
Proof.
  induction 1 as [|r c rs cs Hrc _ (IH1 & IH2 & IH3)]; [done|].
  unfold source_groups, genes_of, filter_genes in *. cbn.
  rewrite fmap_app. split_and!; [by f_equal|by f_equal|].
  constructor; [|done]. cbn. apply Forall_fmap.
  eapply Forall_impl; [exact Hrc|]. intros g <-. done.
Qed.

(** C4: when no two ingested records have the same canonical identifier,
    sorting the filtered flat gene list by source record name and cutting
    it into runs rebuilds the ingestion grouping: the rebuilt clusters
    are, up to their order, the source clusters that own a gene, each with
    exactly its own (filtered) genes in their original order, keyed by the
    canonical identifier of its record. *)
Theorem regroup_roundtrip reps AS_RECORDS GECCO_RECORDS cs cs' :
  clusters reps AS_RECORDS GECCO_RECORDS = Ok cs →
  annotation cs cs' →
  NoDup (canonical ∘ r_name <$> ingested_records reps AS_RECORDS GECCO_RECORDS) →
  regroup (filter_genes (genes_of cs')) ≡ₚ
    (λ b, mkCluster (canonical b.1) b.2) <$>
      filter (λ b, b.2 ≠ [])
        (source_groups (ingested_records reps AS_RECORDS GECCO_RECORDS) cs').
Proof.
  intros Hcs Hann Hnd.
  pose proof (annotation_owned _ _ _ (clusters_owned _ _ _ _ Hcs) Hann) as Hown.
  destruct (source_groups_facts _ _ Hown) as (Hkeys & Hgenes & Hhom).
  unfold regroup. rewrite <-Hgenes. apply fmap_Permutation.
  apply groupby_sort_blocks; [|done].
  rewrite Hkeys. rewrite list_fmap_compose in Hnd. by eapply NoDup_fmap_1.
Qed.

Lemma regroup_roundtrip_witness :
  ∃ cs,
    clusters (representative_ids Sample.gcfs)
      [[Sample.mibig]; [Sample.region; Sample.anonymous_region]]
      [[Sample.gecco_cluster; Sample.gecco_other]] = Ok cs ∧
    c_id <$> regroup (filter_genes (genes_of (annotate Sample.hits cs))) =
      ["BGC0000001"; "NZ_CP1.region001"; "NZ_CP1_cluster_1"] ∧
    regroup (filter_genes (genes_of (annotate Sample.hits cs))) ≡ₚ
      (λ b, mkCluster (canonical b.1) b.2) <$>
        filter (λ b, b.2 ≠ [])
          (source_groups
             (ingested_records (representative_ids Sample.gcfs)
                [[Sample.mibig]; [Sample.region; Sample.anonymous_region]]
                [[Sample.gecco_cluster; Sample.gecco_other]])
             (annotate Sample.hits cs)).
Proof.
  eexists. split; [vm_compute; reflexivity|]. split; [vm_compute; reflexivity|].
  eapply regroup_roundtrip.
  - vm_compute. reflexivity.
  - apply annotation_annotate.
  - apply (bool_decide_unpack _). vm_compute. exact I.
Defined.

(** ** The label table *)

Lemma bgc_to_gcf_index_acc gcfs (d : gmap string cell) :
  dom (fold_left (λ d row, <[row.1 := row.2]> d) gcfs d) =
    list_to_set gcfs.*1 ∪ dom d.
Proof.
  revert d. induction gcfs as [|[k v] gcfs IH]; intros d; cbn.
  - by rewrite (left_id_L ∅ (∪)).
  - rewrite IH, dom_insert_L.
    by rewrite (assoc_L (∪)), (comm_L (∪) _ {[k]}).
Qed.

(** The keys of the label dict are the representative identifiers. *)
Lemma bgc_to_gcf_index_dom gcfs :
  dom (bgc_to_gcf_index gcfs) = representative_ids gcfs.
Proof.
  unfold bgc_to_gcf_index, representative_ids.
  by rewrite bgc_to_gcf_index_acc, dom_empty_L, (right_id_L ∅ (∪)).
Qed.

(** A later row of the table overrides the earlier rows of its key. *)
Lemma bgc_to_gcf_index_last gcfs k v :
  bgc_to_gcf_index (gcfs ++ [(k, v)]) !! k = Some v.
Proof.
  unfold bgc_to_gcf_index. rewrite fold_left_app. cbn. apply lookup_insert_eq.
Qed.

(** Every cluster merged from the sources is keyed by a row of the table. *)
Lemma clusters_present gcfs AS_RECORDS GECCO_RECORDS cs :
  clusters (representative_ids gcfs) AS_RECORDS GECCO_RECORDS = Ok cs →
  Forall (present (bgc_to_gcf_index gcfs)) cs.
Proof.
  intros Hcs. apply Forall_forall. intros c Hc. unfold present.
  apply elem_of_dom. rewrite bgc_to_gcf_index_dom.
  by eapply clusters_ids.
Qed.

(** ** Ordering by group identifier *)

Lemma insert_by_fmap {A B} (f : A → B) (key : B → string) x l :
  insert_by key (f x) (f <$> l) = f <$> insert_by (key ∘ f) x l.
Proof.
  induction l as [|y l IH]; cbn; [done|].
  destruct (String.leb (key (f x)) (key (f y))); [done|]. cbn. by rewrite IH.
Qed.

Lemma sort_by_fmap {A B} (f : A → B) (key : B → string) l :
  sort_by key (f <$> l) = f <$> sort_by (key ∘ f) l.
Proof.
  induction l as [|x l IH]; [done|].
  change (sort_by key (f <$> x :: l)) with (insert_by key (f x) (sort_by key (f <$> l))).
  by rewrite IH, insert_by_fmap.
Qed.

Lemma getitem_present index c :
  present index c → getitem index (c_id c) = Ok (index !!! c_id c).
Proof.
  intros [v Hv]. unfold getitem. rewrite Hv.
  by rewrite (lookup_total_correct _ _ _ Hv).
Qed.

Lemma labelled_lookup index c :
  labelled index c ↔ index !! c_id c = Some (Str (gcf_of index c)).
Proof.
  unfold labelled, gcf_of. destruct (index !! c_id c) as [[]|]; cbn; split;
    (done || by intros []).
Qed.

Lemma labelled_present index c : labelled index c → present index c.
Proof. intros Hc%labelled_lookup. by eexists. Qed.

Lemma first_missing index (cs : list Cluster) :
  Forall (present index) cs ∨
  ∃ pre c post, cs = pre ++ c :: post ∧ Forall (present index) pre ∧
                index !! c_id c = None.
Proof.
  induction cs as [|c cs IH]; [by left|].
  destruct (index !! c_id c) as [v|] eqn:Hc.
  - destruct IH as [IH|(pre & c' & post & -> & Hpre & Hc')].
    + left. constructor; [by exists v|done].
    + right. exists (c :: pre), c', post. split_and!; [done| |done].
      constructor; [by exists v|done].
  - right. by exists [], c, cs.
Qed.

Lemma keyed_present index (cs : list Cluster) :
  Forall (present index) cs →
  mapM (λ c, k ← getitem index (c_id c); mret (k, c)) cs =
    Ok ((λ c, (index !!! c_id c, c)) <$> cs).
Proof.
  intros Hcs. apply mapM_result_Ok. apply Forall2_fmap_r, Forall_Forall2_diag.
  eapply Forall_impl; [exact Hcs|]. intros c Hc. cbn.
  by rewrite (getitem_present _ _ Hc).
Qed.

Lemma str_keyed_labelled index (cs : list Cluster) :
  Forall (labelled index) cs →
  str_keyed ((λ c, (index !!! c_id c, c)) <$> cs) =
    Some ((λ c, (gcf_of index c, c)) <$> cs).
Proof.
  intros Hcs. apply mapM_Some. apply Forall2_fmap, Forall_Forall2_diag.
  eapply Forall_impl; [exact Hcs|]. intros c Hc%labelled_lookup. cbn.
  by rewrite (lookup_total_correct _ _ _ Hc).
Qed.

Section Ordering.
Context (sort_other : list (cell * Cluster) → res (list Cluster)).

(** The sort succeeds when every cluster has a string label, and then
    orders the clusters by group identifier, ties in their previous
    order. *)
Lemma sort_by_key_labelled index (cs : list Cluster) :
  Forall (labelled index) cs →
  sort_by_key sort_other (λ c, getitem index (c_id c)) cs =
    Ok (sort_by (gcf_of index) cs).
Proof.
  intros Hcs. unfold sort_by_key.
  rewrite (keyed_present index cs)
    by (eapply Forall_impl; [exact Hcs|apply labelled_present]).
  cbn. rewrite (str_keyed_labelled _ _ Hcs). cbn.
  rewrite sort_by_fmap, <-list_fmap_compose. f_equal.
  exact (list_fmap_id (sort_by (gcf_of index) cs)).
Qed.

(** It raises [KeyError] at the first cluster without label. *)
Lemma sort_by_key_missing index pre c post :
  Forall (present index) pre → index !! c_id c = None →
  sort_by_key sort_other (λ c, getitem index (c_id c)) (pre ++ c :: post) =
    Raise (KeyError (c_id c)).
Proof.
  intros Hpre Hc. unfold sort_by_key.
  rewrite (mapM_result_first_raise _ _ _ _ _ (KeyError (c_id c)) (keyed_present _ _ Hpre));
    [done|].
  unfold getitem. by rewrite Hc.
Qed.

End Ordering.

Lemma sort_by_sorted_key {A} (key : A → string) (l : list A) :
  StronglySorted (λ x y, (key x ≤ key y)%string) (sort_by key l).
Proof. apply sort_by_sorted. Qed.

(** ** Writing the output files *)

Lemma string_app_assoc (a b c : string) : (a +:+ b) +:+ c = a +:+ b +:+ c.
Proof.
  induction a as [|x a IH]; [done|].
  change (String x ((a +:+ b) +:+ c) = String x (a +:+ b +:+ c)). by rewrite IH.
Qed.

Section FinalizeFacts.
Context {Row : Type} (domain_composition : Cluster → list string → res Row)
        (empty_row : Row) (makedirs : string → io Row ())
        (os_error : syscall → FS Row → option (exn Feature * FS Row))
        (sort_other : list (cell * Cluster) → res (list Cluster)).
Implicit Types (fs : FS Row) (m : gmap string (content Row)).

Lemma io_bind_unfold {A B} (c : io Row A) (f : A → io Row B) fs :
  (c ≫= f) fs =
  match c fs with
  | (Ok a, fs') => f a fs'
  | (Raise e, fs') => (Raise e, fs')
  end.
Proof. done. Qed.

Lemma lift_bind {A B} (r : res A) (f : A → io Row B) fs :
  (lift r ≫= f) fs =
  match r with
  | Ok a => f a fs
  | Raise e => (Raise e, fs)
  end.
Proof. done. Qed.

Lemma os_call_run call effect fs :
  writable os_error → os_call os_error call effect fs = (Ok (), effect fs).
Proof. intros Hos. unfold os_call. by rewrite Hos. Qed.

Lemma open_w_run path fs :
  writable os_error →
  open_w os_error path fs = (Ok (), mkFS (dirs fs) (<[path := Text ""]> (files fs))).
Proof. intros Hos. unfold open_w. by rewrite os_call_run. Qed.

Lemma write_text path s t d m :
  writable os_error →
  write os_error path s (mkFS d (<[path := Text t]> m)) =
    (Ok (), mkFS d (<[path := Text (t +:+ s)]> m)).
Proof.
  intros Hos. unfold write. rewrite os_call_run by done. cbn.
  by rewrite alter_insert_eq.
Qed.

Lemma write_lines path (lines : list string) t d m :
  writable os_error →
  for_each lines (λ line, write os_error path line;; write os_error path NL)
    (mkFS d (<[path := Text t]> m)) =
    (Ok (), mkFS d (<[path := Text (t +:+ text_of lines)]> m)).
Proof.
  intros Hos. revert t.
  induction lines as [|line lines IH]; intros t; cbn [for_each text_of foldr].
  - assert (t +:+ "" = t) as ->; [|done].
    induction t as [|x t IHt]; [done|].
    change (String x (t +:+ "") = String x t). by rewrite IHt.
  - rewrite !io_bind_unfold, !write_text, IH by done.
    by rewrite !string_app_assoc.
Qed.

Lemma label_row_labelled index path c t d m :
  writable os_error → labelled index c →
  label_row os_error index path c (mkFS d (<[path := Text t]> m)) =
    (Ok (), mkFS d (<[path := Text (t +:+ label_line index c +:+ NL)]> m)).
Proof.
  intros Hos Hc%labelled_lookup. unfold label_row.
  rewrite io_bind_unfold, write_text by done.
  rewrite io_bind_unfold, write_text by done.
  rewrite lift_bind. unfold getitem. rewrite Hc. cbn [write_cell].
  rewrite io_bind_unfold, write_text by done.
  rewrite write_text by done.
  unfold label_line. by rewrite !string_app_assoc.
Qed.

(** A cell that is not a string stops the loop after the identifier and
    the tab. *)
Lemma label_row_TypeError index path c v t d m :
  writable os_error → index !! c_id c = Some v → as_str v = None →
  label_row os_error index path c (mkFS d (<[path := Text t]> m)) =
    (Raise TypeError, mkFS d (<[path := Text (t +:+ c_id c +:+ TAB)]> m)).
Proof.
  intros Hos Hc Hv. unfold label_row.
  rewrite io_bind_unfold, write_text by done.
  rewrite io_bind_unfold, write_text by done.
  rewrite lift_bind. unfold getitem. rewrite Hc.
  rewrite string_app_assoc. by destruct v.
Qed.

Lemma label_row_KeyError index path c t d m :
  writable os_error → index !! c_id c = None →
  label_row os_error index path c (mkFS d (<[path := Text t]> m)) =
    (Raise (KeyError (c_id c)), mkFS d (<[path := Text (t +:+ c_id c +:+ TAB)]> m)).
Proof.
  intros Hos Hc. unfold label_row.
  rewrite io_bind_unfold, write_text by done.
  rewrite io_bind_unfold, write_text by done.
  rewrite lift_bind. unfold getitem. rewrite Hc.
  by rewrite string_app_assoc.
Qed.

Lemma write_label_lines index path (cs : list Cluster) t d m :
  writable os_error → Forall (labelled index) cs →
  for_each cs (label_row os_error index path) (mkFS d (<[path := Text t]> m)) =
    (Ok (), mkFS d (<[path := Text (t +:+ text_of (label_line index <$> cs))]> m)).
Proof.
  intros Hos Hcs. revert t.
  induction Hcs as [|c cs Hc _ IH]; intros t.
  - apply (write_lines path [] t d m Hos).
  - cbn [for_each fmap list_fmap text_of foldr].
    rewrite io_bind_unfold, label_row_labelled, IH by done.
    by rewrite !string_app_assoc.
Qed.

Lemma write_label_lines_TypeError index path pre c v post t d m :
  writable os_error → Forall (labelled index) pre →
  index !! c_id c = Some v → as_str v = None →
  for_each (pre ++ c :: post) (label_row os_error index path)
    (mkFS d (<[path := Text t]> m)) =
    (Raise TypeError,
     mkFS d (<[path := Text (t +:+ text_of (label_line index <$> pre) +:+
                                c_id c +:+ TAB)]> m)).
Proof.
  intros Hos Hpre Hc Hv. revert t.
  induction Hpre as [|c0 pre Hc0 _ IH]; intros t.
  - cbn [app for_each fmap list_fmap text_of foldr].
    rewrite io_bind_unfold, (label_row_TypeError _ _ _ v) by done.
    done.
  - cbn [app for_each fmap list_fmap text_of foldr].
    rewrite io_bind_unfold, label_row_labelled, IH by done.
    by rewrite !string_app_assoc.
Qed.

(** However the loop ends, it has changed the text of its file only. *)
Lemma write_label_lines_frame index path (cs : list Cluster) t d m :
  writable os_error →
  ∃ r t', for_each cs (label_row os_error index path) (mkFS d (<[path := Text t]> m)) =
            (r, mkFS d (<[path := Text t']> m)).
Proof.
  intros Hos. revert t. induction cs as [|c cs IH]; intros t.
  - by exists (Ok ()), t.
  - cbn [for_each]. rewrite io_bind_unfold.
    destruct (index !! c_id c) as [v|] eqn:Hc.
    + destruct (as_str v) as [s|] eqn:Hv.
      * rewrite label_row_labelled; [apply IH|done|].
        unfold labelled. rewrite Hc. cbn. by rewrite Hv.
      * rewrite (label_row_TypeError _ _ _ v) by done. by eexists _, _.
    + rewrite label_row_KeyError by done. by eexists _, _.
Qed.

Lemma write_labels_unfold index path cs :
  write_labels os_error index path cs =
    (open_w os_error path;; for_each cs (label_row os_error index path)).
Proof. done. Qed.

Lemma write_labels_run index path (cs : list Cluster) fs :
  writable os_error → Forall (labelled index) cs →
  write_labels os_error index path cs fs =
    (Ok (), mkFS (dirs fs) (<[path := Text (text_of (label_line index <$> cs))]> (files fs))).
Proof.
  intros Hos Hcs. rewrite write_labels_unfold, io_bind_unfold, open_w_run by done.
  by rewrite (write_label_lines _ _ _ "" _ _ Hos Hcs).
Qed.

Lemma write_domains_run path (names : list string) fs :
  writable os_error →
  write_domains os_error path names fs =
    (Ok (), mkFS (dirs fs) (<[path := Text (text_of names)]> (files fs))).
Proof.
  intros Hos. unfold write_domains. rewrite io_bind_unfold, open_w_run by done.
  by rewrite (write_lines _ _ "").
Qed.

(** A failure of the ordering step ends the finalisation at once. *)
Lemma finalize_unordered index output (cs : list Cluster) fs e :
  sort_by_key sort_other (λ c, getitem index (c_id c)) cs = Raise e →
  finalize domain_composition empty_row makedirs os_error sort_other
    index output cs fs = (Raise e, fs).
Proof. intros Hs. unfold finalize. by rewrite lift_bind, Hs. Qed.

(** The course of the finalisation on string labels, once the directory is
    there and while the writes go through: the two tables, then the
    matrix. *)
Lemma finalize_labelled index output (cs sorted : list Cluster) fs fs1 :
  sort_by_key sort_other (λ c, getitem index (c_id c)) cs = Ok sorted →
  makedirs output fs = (Ok (), fs1) →
  writable os_error → Forall (labelled index) sorted →
  finalize domain_composition empty_row makedirs os_error sort_other
    index output cs fs =
  let fs2 := tables_written index output sorted fs1 in
  match mapM (λ c, domain_composition c (all_possible sorted)) sorted with
  | Raise e => (Raise e, fs2)
  | Ok comp =>
      (Ok (), mkFS (dirs fs2)
                (<[path_join output "compositions.npz" := Npz (coo_matrix empty_row comp)]>
                   (files fs2)))
  end.
Proof.
  intros Hs Hmk Hos Hsorted. unfold finalize. rewrite lift_bind, Hs. cbv zeta.
  rewrite io_bind_unfold, Hmk.
  rewrite io_bind_unfold, (write_labels_run _ _ _ _ Hos Hsorted).
  rewrite io_bind_unfold, write_domains_run by done.
  rewrite lift_bind.
  destruct (mapM _ _); [|done].
  unfold save_npz. by rewrite os_call_run.
Qed.

(** A label that is not a string stops it at line 210. *)
Lemma finalize_TypeError index output (cs pre post : list Cluster) c v fs fs1 :
  sort_by_key sort_other (λ c, getitem index (c_id c)) cs = Ok (pre ++ c :: post) →
  makedirs output fs = (Ok (), fs1) →
  writable os_error → Forall (labelled index) pre →
  index !! c_id c = Some v → as_str v = None →
  finalize domain_composition empty_row makedirs os_error sort_other
    index output cs fs =
    (Raise TypeError,
     mkFS (dirs fs1)
       (<[path_join output "labels.tsv" :=
            Text (text_of (label_line index <$> pre) +:+ c_id c +:+ TAB)]> (files fs1))).
Proof.
  intros Hs Hmk Hos Hpre Hc Hv. unfold finalize. rewrite lift_bind, Hs. cbv zeta.
  rewrite io_bind_unfold, Hmk.
  rewrite io_bind_unfold, write_labels_unfold, io_bind_unfold, open_w_run by done.
  by rewrite (write_label_lines_TypeError _ _ _ _ v _ "") by done.
Qed.

End FinalizeFacts.

(** ** Lines and fields of the written text *)

Lemma count_cons_0 sep c s :
  PyStr.count sep (String c s) = 0 ↔ Ascii.eqb c sep = false ∧ PyStr.count sep s = 0.
Proof. cbn. destruct (Ascii.eqb c sep); split; [done|by intros []|done|by intros []]. Qed.

Lemma split_no_sep sep s : PyStr.count sep s = 0 → PyStr.split sep s = [s].
Proof.
  induction s as [|c s IH]; [done|].
  intros [Hc Hs]%count_cons_0. cbn. by rewrite Hc, (IH Hs).
Qed.

Lemma split_app sep a b :
  PyStr.count sep a = 0 →
  PyStr.split sep (a +:+ String sep b) = a :: PyStr.split sep b.
Proof.
  induction a as [|c a IH].
  - intros _. change ("" +:+ String sep b) with (String sep b).
    cbn. by rewrite Ascii.eqb_refl.
  - intros [Hc Ha]%count_cons_0.
    change (String c a +:+ String sep b) with (String c (a +:+ String sep b)).
    cbn. by rewrite Hc, (IH Ha).
Qed.

Lemma split_text_of (lines : list string) :
  Forall (λ line, PyStr.count "010" line = 0) lines →
  PyStr.split "010" (text_of lines) = lines ++ [""].
Proof.
  induction 1 as [|line lines Hline _ IH]; [done|].
  change (text_of (line :: lines)) with (line +:+ String "010" (text_of lines)).
  by rewrite (split_app _ _ _ Hline), IH.
Qed.

(** Reading back a text written line by line returns the lines. *)
Lemma splitlines_text_of (lines : list string) :
  Forall (λ line, PyStr.count "010" line = 0) lines →
  PyStr.splitlines (text_of lines) = lines.
Proof.
  intros Hl. unfold PyStr.splitlines. rewrite (split_text_of _ Hl).
  by rewrite last_snoc, removelast_last.
Qed.

Lemma split_label_line index c :
  tsv_field (c_id c) → tsv_field (gcf_of index c) →
  PyStr.split "009" (label_line index c) = [c_id c; gcf_of index c].
Proof.
  intros [Hid _] [Hgcf _]. unfold label_line.
  change (TAB +:+ gcf_of index c) with (String "009" (gcf_of index c)).
  by rewrite (split_app _ _ _ Hid), (split_no_sep _ _ Hgcf).
Qed.

Lemma count_app sep a b :
  PyStr.count sep (a +:+ b) = PyStr.count sep a + PyStr.count sep b.
Proof.
  induction a as [|c a IH]; [done|].
  change (String c a +:+ b) with (String c (a +:+ b)). cbn. rewrite IH. lia.
Qed.

Lemma label_line_no_NL index c :
  tsv_field (c_id c) → tsv_field (gcf_of index c) →
  PyStr.count "010" (label_line index c) = 0.
Proof.
  intros [_ Hid] [_ Hgcf]. unfold label_line. rewrite !count_app, Hid, Hgcf. done.
Qed.

(** ** The output paths *)

Lemma path_join_inj a b1 b2 :
  PyStr.startswith b1 "/" = false → PyStr.startswith b2 "/" = false →
  path_join a b1 = path_join a b2 → b1 = b2.
Proof.
  intros H1 H2. unfold path_join. rewrite H1, H2.
  destruct (_ || _); intros H.
  - by apply (inj (String.app a)) in H.
  - apply (inj (String.app a)) in H. by apply (inj (String.app "/")) in H.
Qed.

Lemma output_paths_distinct output :
  path_join output "labels.tsv" ≠ path_join output "domains.tsv" ∧
  path_join output "labels.tsv" ≠ path_join output "compositions.npz" ∧
  path_join output "domains.tsv" ≠ path_join output "compositions.npz".
Proof. split_and!; intros H; by apply path_join_inj in H. Qed.

(** ** The vocabulary *)

Lemma StronglySorted_le_strict (l : list string) :
  NoDup l → StronglySorted String.le l → StronglySorted (strict String.le) l.
Proof.
  intros Hnd. induction 1 as [|x l _ IH Hall]; [constructor|].
  apply NoDup_cons in Hnd as [Hx Hnd]. constructor; [by apply IH|].
  apply Forall_forall. intros y Hy. rewrite Forall_forall in Hall.
  apply strict_spec_alt. split; [by apply Hall|]. intros ->. done.
Qed.

Lemma elem_of_domain_names (cs : list Cluster) n :
  n ∈ domain_names cs ↔
  ∃ c g d, c ∈ cs ∧ g ∈ c_genes c ∧ d ∈ p_domains (g_protein g) ∧ d_name d = n.
Proof.
  unfold domain_names. rewrite list_elem_of_bind. split.
  - intros (c & (g & (d & Hn & Hd)%list_elem_of_bind & Hg)%list_elem_of_bind & Hc).
    apply list_elem_of_singleton in Hn. by exists c, g, d.
  - intros (c & g & d & Hc & Hg & Hd & <-). exists c. split; [|done].
    apply list_elem_of_bind. exists g. split; [|done].
    apply list_elem_of_bind. exists d. split; [|done]. by apply list_elem_of_singleton.
Qed.

(** The vocabulary is the strictly ascending list of the domain names of
    the clusters. *)
Lemma all_possible_spec (cs : list Cluster) :
  NoDup (all_possible cs) ∧
  StronglySorted (strict String.le) (all_possible cs) ∧
  ∀ n, n ∈ all_possible cs ↔ n ∈ domain_names cs.
Proof.
  unfold all_possible.
  assert (NoDup (sort_by id (elements (list_to_set (domain_names cs) : gset string))))
    as Hnd by (rewrite sort_by_Permutation; apply NoDup_elements).
  split_and!; [done| |].
  - apply StronglySorted_le_strict; [done|]. apply (sort_by_sorted id).
  - intros n. by rewrite sort_by_Permutation, elem_of_elements, elem_of_list_to_set.
Qed.

Lemma all_possible_Permutation (cs cs' : list Cluster) :
  cs ≡ₚ cs' → ∀ n, n ∈ all_possible cs ↔ n ∈ all_possible cs'.
Proof.
  intros Hp n. destruct (all_possible_spec cs) as (_ & _ & ->).
  destruct (all_possible_spec cs') as (_ & _ & ->).
  rewrite !elem_of_domain_names. by setoid_rewrite Hp.
Qed.

(** ** The genes and domains of the final clusters *)

Lemma bind_snd_concat {A} (runs : list (string * list A)) :
  runs ≫= snd = concat runs.*2.
Proof. induction runs as [|r runs IH]; [done|]. cbn. by rewrite <-IH. Qed.

Lemma genes_of_regroup genes :
  genes_of (regroup genes) = sort_by source_name genes.
Proof.
  unfold genes_of, regroup. rewrite list_fmap_bind.
  rewrite <-(groupby_concat source_name (sort_by source_name genes)) at 2.
  apply bind_snd_concat.
Qed.

Lemma elem_of_genes_of (cs : list Cluster) g :
  g ∈ genes_of cs ↔ ∃ c, c ∈ cs ∧ g ∈ c_genes c.
Proof.
  unfold genes_of. rewrite list_elem_of_bind.
  split; intros (c & ? & ?); by exists c.
Qed.

(** The domains of the regrouped clusters are the significant domains of
    the annotated genes. *)
Lemma regroup_domains genes n :
  n ∈ domain_names (regroup (filter_genes genes)) ↔
  ∃ g d, g ∈ genes ∧ d ∈ p_domains (g_protein g) ∧ d_name d = n ∧
         significant d = true.
Proof.
  rewrite elem_of_domain_names. split.
  - intros (c & g & d & Hc & Hg & Hd & Hn).
    assert (g ∈ genes_of (regroup (filter_genes genes))) as Hin
      by (apply elem_of_genes_of; eauto).
    rewrite genes_of_regroup, sort_by_Permutation in Hin.
    apply list_elem_of_fmap in Hin as (g0 & -> & Hg0).
    cbn in Hd. apply list_elem_of_filter in Hd as [Hs Hd].
    exists g0, d. split_and!; [done..|]. by apply Is_true_true.
  - intros (g0 & d & Hg0 & Hd & Hn & Hs).
    assert (filter_gene g0 ∈ genes_of (regroup (filter_genes genes))) as Hin.
    { rewrite genes_of_regroup, sort_by_Permutation. by apply list_elem_of_fmap_2. }
    apply elem_of_genes_of in Hin as (c & Hc & Hg).
    exists c, (filter_gene g0), d. split_and!; [done..| |done].
    cbn. apply list_elem_of_filter. split; [by apply Is_true_true|done].
Qed.

Section Finalisation.
Context {Row : Type} (domain_composition : Cluster → list string → res Row)
        (empty_row : Row) (makedirs : string → io Row ())
        (os_error : syscall → FS Row → option (exn Feature * FS Row))
        (sort_other : list (cell * Cluster) → res (list Cluster)).
Implicit Types (fs : FS Row) (cs : list Cluster).

Lemma finalize_succeeds index output cs fs fs1 :
  Forall (labelled index) cs → makedirs output fs = (Ok (), fs1) →
  writable os_error →
  (∀ c, c ∈ cs →
     ∃ row, domain_composition c (all_possible (sort_by (gcf_of index) cs)) = Ok row) →
  let sorted := sort_by (gcf_of index) cs in
  let fs2 := tables_written index output sorted fs1 in
  ∃ comp,
    Forall2 (λ c row, domain_composition c (all_possible sorted) = Ok row) sorted comp ∧
    finalize domain_composition empty_row makedirs os_error sort_other
      index output cs fs =
      (Ok (), mkFS (dirs fs2)
                (<[path_join output "compositions.npz" := Npz (coo_matrix empty_row comp)]>
                   (files fs2))).
Proof.
  intros Hcs Hmk Hos Htotal sorted fs2.
  destruct (mapM_result_total (λ c, domain_composition c (all_possible sorted)) sorted)
    as [comp Hcomp].
  { intros c Hc. apply Htotal. subst sorted. by rewrite sort_by_Permutation in Hc. }
  exists comp. split; [by apply mapM_result_Ok|].
  rewrite (finalize_labelled domain_composition empty_row makedirs os_error
             sort_other index output cs sorted fs fs1
             (sort_by_key_labelled _ _ _ Hcs) Hmk Hos).
  - cbv zeta. by rewrite Hcomp.
  - subst sorted. by rewrite sort_by_Permutation.
Qed.


(** C2 (amended): only [compositions.npz] waits for the matrix. A failure
    of the ordering step leaves the file system as it was. When the labels
    are strings, the directory is made and the writes go through, the two
    tables are written before the matrix is assembled and leave
    [compositions.npz] alone: a failure of the assembly ends the run with
    [labels.tsv] and [domains.tsv] in full and without the matrix, and
    only an assembly that succeeds is followed by the writing of
    [compositions.npz]. *)
Theorem outputs_on_failure index output cs fs :
  let npz := path_join output "compositions.npz" in
  (∀ e, sort_by_key sort_other (λ c, getitem index (c_id c)) cs = Raise e →
        finalize domain_composition empty_row makedirs os_error sort_other
      index output cs fs = (Raise e, fs)) ∧
  (∀ fs1, Forall (labelled index) cs → makedirs output fs = (Ok (), fs1) →
     writable os_error →
     let sorted := sort_by (gcf_of index) cs in
     let fs2 := tables_written index output sorted fs1 in
     files fs2 !! npz = files fs1 !! npz ∧
     (∀ e, mapM (λ c, domain_composition c (all_possible sorted)) sorted = Raise e →
           finalize domain_composition empty_row makedirs os_error sort_other
      index output cs fs = (Raise e, fs2)) ∧
     (∀ comp, mapM (λ c, domain_composition c (all_possible sorted)) sorted = Ok comp →
           finalize domain_composition empty_row makedirs os_error sort_other
      index output cs fs =
             (Ok (), mkFS (dirs fs2)
                       (<[npz := Npz (coo_matrix empty_row comp)]> (files fs2))))).
Proof.
  intros npz. split; [intros e; apply finalize_unordered|].
  intros fs1 Hcs Hmk Hos sorted fs2.
  destruct (output_paths_distinct output) as (_ & Hln & Hdn).
  assert (Forall (labelled index) sorted) as Hsorted
    by (subst sorted; by rewrite sort_by_Permutation).
  pose proof (finalize_labelled domain_composition empty_row makedirs os_error
                sort_other index output cs sorted fs fs1
                (sort_by_key_labelled _ _ _ Hcs) Hmk Hos Hsorted) as Hrun.
  cbv zeta in Hrun. fold fs2 in Hrun. split_and!.
  - subst fs2. cbn. by rewrite !lookup_insert_ne.
  - intros e He. by rewrite Hrun, He.
  - intros comp Hcomp. by rewrite Hrun, Hcomp.
Qed.

End Finalisation.

Section Alignment.
Context {Row : Type} (domain_composition : Cluster → list string → res Row)
        (empty_row : Row) (makedirs : string → io Row ())
        (os_error : syscall → FS Row → option (exn Feature * FS Row))
        (sort_other : list (cell * Cluster) → res (list Cluster)).
Implicit Types (fs : FS Row) (cs : list Cluster).

(** X20: after a successful finalisation of at least one cluster, whose
    identifiers and group identifiers hold no tab and no line feed, line
    [i] of [labels.tsv] has exactly two tab-separated fields, the
    identifier of the [i]-th cluster of the ordered list and its group
    identifier in the label table, and row [i] of the matrix saved in
    [compositions.npz] is the composition vector of that same cluster;
    both have one entry per final cluster. *)
Theorem matrix_label_alignment index output cs fs fs1 :
  cs ≠ [] →
  Forall (labelled index) cs → makedirs output fs = (Ok (), fs1) →
  writable os_error →
  (∀ c, c ∈ cs →
     ∃ row, domain_composition c (all_possible (sort_by (gcf_of index) cs)) = Ok row) →
  (∀ c, c ∈ cs → tsv_field (c_id c) ∧ tsv_field (gcf_of index c)) →
  let sorted := sort_by (gcf_of index) cs in
  ∃ fs' labels comp,
    finalize domain_composition empty_row makedirs os_error sort_other
      index output cs fs = (Ok (), fs') ∧
    files fs' !! path_join output "labels.tsv" = Some (Text labels) ∧
    files fs' !! path_join output "compositions.npz" = Some (Npz comp) ∧
    length (PyStr.splitlines labels) = length cs ∧
    length comp = length cs ∧
    ∀ i c, sorted !! i = Some c →
      ∃ line row,
        PyStr.splitlines labels !! i = Some line ∧
        PyStr.split "009" line = [c_id c; gcf_of index c] ∧
        index !! c_id c = Some (Str (gcf_of index c)) ∧
        comp !! i = Some row ∧
        domain_composition c (all_possible sorted) = Ok row.
Proof.
  intros Hne Hcs Hmk Hos Htotal Hfields sorted.
  destruct (finalize_succeeds domain_composition empty_row makedirs os_error
              sort_other _ _ _ _ _ Hcs Hmk Hos Htotal)
    as (comp & Hcomp & Hrun). fold sorted in Hcomp, Hrun.
  destruct (output_paths_distinct output) as (Hld & Hln & Hdn).
  assert (length sorted = length cs) as Hlen
    by (subst sorted; by rewrite sort_by_Permutation).
  assert (coo_matrix empty_row comp = comp) as Hcoo.
  { apply Forall2_length in Hcomp. rewrite Hlen in Hcomp.
    destruct comp; [by destruct cs|done]. }
  rewrite Hcoo in Hrun.
  assert (Forall (λ c, labelled index c ∧ tsv_field (c_id c) ∧
                       tsv_field (gcf_of index c)) sorted) as Hsorted.
  { apply Forall_forall. intros c Hc. subst sorted.
    rewrite sort_by_Permutation in Hc. rewrite Forall_forall in Hcs.
    destruct (Hfields _ Hc). auto. }
  assert (PyStr.splitlines (text_of (label_line index <$> sorted)) =
          label_line index <$> sorted) as Hlines.
  { apply splitlines_text_of, Forall_fmap.
    eapply Forall_impl; [exact Hsorted|]. intros c (_ & ? & ?).
    by apply label_line_no_NL. }
  eexists _, (text_of (label_line index <$> sorted)), comp.
  split; [exact Hrun|]. cbn [files tables_written].
  split_and!.
  - rewrite lookup_insert_ne, lookup_insert_ne, lookup_insert_eq by done. done.
  - by rewrite lookup_insert_eq.
  - by rewrite Hlines, length_fmap.
  - by rewrite <-(Forall2_length _ _ _ Hcomp).
  - intros i c Hi.
    destruct (Forall2_lookup_l _ _ _ _ _ Hcomp Hi) as (row & Hrow & Hdc).
    rewrite Forall_forall in Hsorted.
    destruct (Hsorted c) as (Hlab & Hid & Hgcf);
      [by eapply list_elem_of_lookup_2|].
    exists (label_line index c), row. split_and!; [|by apply split_label_line| |done..].
    + by rewrite Hlines, list_lookup_fmap, Hi.
    + by apply labelled_lookup.
Qed.

(** C7: after a successful run of the second phase, the lines of
    [domains.tsv] are pairwise distinct, in strictly ascending order, and
    are exactly the domain names found in the proteins of the genes of the
    final clusters; these are exactly the names of the domains of the
    annotated genes with p-value below the threshold, so that a name
    filtered out of every gene is not listed. *)
Theorem vocabulary_complete index output genes fs fs1 :
  let final := sort_by (gcf_of index) (regroup (filter_genes genes)) in
  Forall (labelled index) (regroup (filter_genes genes)) →
  makedirs output fs = (Ok (), fs1) → writable os_error →
  (∀ c, c ∈ final → ∃ row, domain_composition c (all_possible final) = Ok row) →
  Forall (λ n, PyStr.count "010" n = 0) (all_possible final) →
  ∃ fs' domains,
    second_phase domain_composition empty_row makedirs os_error sort_other
      index output genes fs = (Ok (), fs') ∧
    files fs' !! path_join output "domains.tsv" = Some (Text domains) ∧
    NoDup (PyStr.splitlines domains) ∧
    StronglySorted (strict String.le) (PyStr.splitlines domains) ∧
    (∀ n, n ∈ PyStr.splitlines domains ↔
       ∃ c g d, c ∈ final ∧ g ∈ c_genes c ∧ d ∈ p_domains (g_protein g) ∧
                d_name d = n) ∧
    (∀ n, n ∈ PyStr.splitlines domains ↔
       ∃ g d, g ∈ genes ∧ d ∈ p_domains (g_protein g) ∧ d_name d = n ∧
              significant d = true).
Proof.
  intros final Hcs Hmk Hos Htotal Hnames.
  destruct (finalize_succeeds domain_composition empty_row makedirs os_error
              sort_other _ _ _ _ _ Hcs Hmk Hos)
    as (comp & _ & Hrun).
  { intros c Hc. apply Htotal. subst final. by rewrite sort_by_Permutation. }
  fold final in Hrun.
  destruct (output_paths_distinct output) as (Hld & Hln & Hdn).
  destruct (all_possible_spec final) as (Hnd & Hsorted & Hin).
  eexists _, (text_of (all_possible final)).
  split; [exact Hrun|]. cbn [files tables_written].
  rewrite (splitlines_text_of _ Hnames).
  split_and!; [|done|done| |].
  - rewrite lookup_insert_ne, lookup_insert_eq by done. done.
  - intros n. by rewrite Hin, elem_of_domain_names.
  - intros n. rewrite <-regroup_domains.
    destruct (all_possible_spec (regroup (filter_genes genes))) as (_ & _ & <-).
    apply all_possible_Permutation. subst final. apply sort_by_Permutation.
Qed.

End Alignment.

(** ** The claims on the sample run *)

Lemma sample_labelled : Forall (labelled Sample.index) Sample.all_clusters.
Proof. apply (bool_decide_unpack _). vm_compute. exact I. Defined.

Lemma sample_counts_total (cs : list Cluster) (names : list string) c :
  c ∈ cs → ∃ row, Sample.counts c names = Ok row.
Proof. intros _. by eexists. Defined.

Lemma sample_makedirs :
  Sample.makedirs "out" Sample.empty_fs = (Ok (), Sample.out_fs).
Proof. vm_compute. reflexivity. Defined.

Lemma sample_reliable : writable Sample.reliable.
Proof. intros call fs. reflexivity. Defined.


Lemma matrix_label_alignment_witness :
  ∃ fs' labels comp,
    finalize Sample.counts [] Sample.makedirs Sample.reliable Sample.sort_other Sample.index "out" Sample.all_clusters Sample.empty_fs = (Ok (), fs') ∧
    files fs' !! path_join "out" "labels.tsv" = Some (Text labels) ∧
    files fs' !! path_join "out" "compositions.npz" = Some (Npz comp) ∧
    length (PyStr.splitlines labels) = 3 ∧ length comp = 3.
Proof.
  destruct (matrix_label_alignment Sample.counts [] Sample.makedirs Sample.reliable
              Sample.sort_other Sample.index "out"
              Sample.all_clusters Sample.empty_fs Sample.out_fs)
    as (fs' & labels & comp & Hrun & Hl & Hn & Hlen & Hcomp & _).
  - vm_compute. discriminate.
  - exact sample_labelled.
  - exact sample_makedirs.
  - exact sample_reliable.
  - apply sample_counts_total.
  - apply Forall_forall. apply (bool_decide_unpack _). vm_compute. exact I.
  - assert (length Sample.all_clusters = 3) as Hlen3 by (vm_compute; reflexivity).
    exists fs', labels, comp.
    split; [exact Hrun|]. split; [exact Hl|]. split; [exact Hn|].
    split; [exact (eq_trans Hlen Hlen3)|exact (eq_trans Hcomp Hlen3)].
Defined.

Lemma vocabulary_complete_witness :
  ∃ fs' domains,
    second_phase Sample.counts [] Sample.makedirs Sample.reliable Sample.sort_other
      Sample.index "out" Sample.annotated_genes Sample.empty_fs = (Ok (), fs') ∧
    files fs' !! path_join "out" "domains.tsv" = Some (Text domains) ∧
    NoDup (PyStr.splitlines domains) ∧
    StronglySorted (strict String.le) (PyStr.splitlines domains).
Proof.
  destruct (vocabulary_complete Sample.counts [] Sample.makedirs Sample.reliable
              Sample.sort_other Sample.index "out"
              Sample.annotated_genes Sample.empty_fs Sample.out_fs)
    as (fs' & domains & Hrun & Hd & Hnd & Hs & _).
  - exact sample_labelled.
  - exact sample_makedirs.
  - exact sample_reliable.
  - apply sample_counts_total.
  - apply (bool_decide_unpack _). vm_compute. exact I.
  - exists fs', domains.
    split; [exact Hrun|]. split; [exact Hd|]. split; [exact Hnd|exact Hs].
Defined.

Lemma outputs_on_failure_witness :
  finalize Sample.exhausted [] Sample.makedirs Sample.reliable Sample.sort_other
    Sample.index "out" Sample.all_clusters Sample.empty_fs =
    (Raise (External "MemoryError"),
     tables_written Sample.index "out"
       (sort_by (gcf_of Sample.index) Sample.all_clusters) Sample.out_fs) ∧
  files (tables_written Sample.index "out"
           (sort_by (gcf_of Sample.index) Sample.all_clusters) Sample.out_fs)
    !! path_join "out" "compositions.npz" = None.
Proof.
  destruct (proj2 (outputs_on_failure Sample.exhausted [] Sample.makedirs
              Sample.reliable Sample.sort_other Sample.index "out"
              Sample.all_clusters Sample.empty_fs) Sample.out_fs
              sample_labelled sample_makedirs sample_reliable)
    as (Hnpz & Hfail & _).
  split.
  - apply Hfail. vm_compute. reflexivity.
  - exact Hnpz.
Defined.

(** C2 (as stated) fails: [labels.tsv] and [domains.tsv] are written at
    lines 206-216, before the matrix is assembled at line 218; when the
    assembly raises, the run has failed and the output directory holds the
    two files. *)
Lemma partial_output_on_failure :
  let run := second_phase Sample.exhausted [] Sample.makedirs Sample.reliable
               Sample.sort_other Sample.index "out" Sample.annotated_genes
               Sample.empty_fs in
  run.1 = Raise (External "MemoryError") ∧
  "out" ∈ dirs run.2 ∧
  files run.2 !! "out/labels.tsv" =
    Some (Text (text_of ["NZ_CP1_cluster_1" +:+ TAB +:+ "GCF_01";
                         "BGC0000001" +:+ TAB +:+ "GCF_02";
                         "NZ_CP1.region001" +:+ TAB +:+ "GCF_03"])) ∧
  files run.2 !! "out/domains.tsv" = Some (Text (text_of ["PF00001"; "PF00005"])) ∧
  files run.2 !! "out/compositions.npz" = None ∧
  ¬ (∀ (dc : Cluster → list string → res (list nat)) index output cs fs e fs',
       finalize dc [] Sample.makedirs Sample.reliable Sample.sort_other
         index output cs fs = (Raise e, fs') → fs' = fs).
Proof.
  split_and!; [vm_compute; reflexivity|vm_compute; set_solver|
               vm_compute; reflexivity..|].
  intros H.
  specialize (H Sample.exhausted Sample.index "out" Sample.all_clusters
                Sample.empty_fs (External "MemoryError")
                (tables_written Sample.index "out"
                   (sort_by (gcf_of Sample.index) Sample.all_clusters)
                   Sample.out_fs)).
  assert (files (tables_written Sample.index "out"
                   (sort_by (gcf_of Sample.index) Sample.all_clusters)
                   Sample.out_fs) !! path_join "out" "labels.tsv"
          = files Sample.empty_fs !! path_join "out" "labels.tsv") as Heq.
  { f_equal. f_equal. apply H. vm_compute. reflexivity. }
  vm_compute in Heq. discriminate Heq.
Qed.

(** C6: the alignment of the rows of the matrix with the lines of
    [labels.tsv] breaks on a run without any final cluster. Line 218
    builds [numpy.array([])] and line 219 saves it as a matrix of one row
    without column, while [labels.tsv] has no line: row 0 of the matrix is
    the composition of no cluster and has no line. *)
Theorem matrix_row_without_label :
  let run := finalize Sample.counts [] Sample.makedirs Sample.reliable Sample.sort_other Sample.index "out" [] Sample.empty_fs in
  run.1 = Ok () ∧
  files run.2 !! "out/labels.tsv" = Some (Text "") ∧
  files run.2 !! "out/compositions.npz" = Some (Npz [[]]) ∧
  ¬ (∀ i (row : list nat), [[]] !! i = Some row →
       ∃ line, PyStr.splitlines "" !! i = Some line).
Proof.
  split_and!; [vm_compute; reflexivity..|].
  intros H. destruct (H 0 [] eq_refl) as [line Hline].
  vm_compute in Hline. discriminate Hline.
Qed.

(** * Further properties of the script *)

(** ** Shape of canonical identifiers *)

(** X1: on a [BGC] identifier with a dot the rule removes exactly the last
    ['.']-delimited segment: the identifier is its canonical form, a dot
    and a dot-free suffix, the canonical form still starts with [BGC] and
    has one dot less; every other identifier is left as it is. *)
Theorem canonical_last_segment (x : string) :
  (PyStr.startswith x "BGC" = true → PyStr.count "." x ≠ 0 →
     ∃ t, x = canonical x +:+ String "." t ∧ PyStr.count "." t = 0 ∧
          PyStr.startswith (canonical x) "BGC" = true ∧
          S (PyStr.count "." (canonical x)) = PyStr.count "." x) ∧
  (PyStr.startswith x "BGC" = false ∨ PyStr.count "." x = 0 → canonical x = x).
Proof.
  unfold canonical. split.
  - intros Hx Hdots. rewrite Hx. unfold PyStr.rsplit1_head.
    destruct (PyStr.rsplit1 "." x) as [[h t]|] eqn:Hs.
    + apply startswith_app in Hx as [r ->].
      pose proof (rsplit1_BGC _ _ _ Hs) as Hh.
      apply rsplit1_Some in Hs as (Heq & Ht & Hc).
      exists t. by rewrite Hh, Hc.
    + by apply rsplit1_None in Hs.
  - intros [->|Hdots]; [done|].
    destruct (PyStr.startswith x "BGC"); [|done].
    by apply rsplit1_head_fixed.
Qed.

Lemma canonical_last_segment_witness :
  ∃ t, "BGC0000001.1.gbk" = canonical "BGC0000001.1.gbk" +:+ String "." t ∧
       PyStr.count "." t = 0 ∧
       canonical "NZ_CP1.region001" = "NZ_CP1.region001".
Proof.
  destruct (proj1 (canonical_last_segment "BGC0000001.1.gbk") eq_refl)
    as (t & Ht & Hc & _); [discriminate|].
  exists t. split; [exact Ht|]. split; [exact Hc|].
  apply (proj2 (canonical_last_segment "NZ_CP1.region001")). by left.
Defined.

(** ** The label table as a dict *)

Lemma bgc_to_gcf_index_snoc gcfs k v :
  bgc_to_gcf_index (gcfs ++ [(k, v)]) = <[k := v]> (bgc_to_gcf_index gcfs).
Proof. unfold bgc_to_gcf_index. by rewrite fold_left_app. Qed.

(** X2: the keys of the label dict are exactly the representative
    identifiers, and the dict maps an identifier to the group of the last
    row of the table that names it. *)
Theorem label_table_last_row (gcfs : list (string * cell)) :
  dom (bgc_to_gcf_index gcfs) = representative_ids gcfs ∧
  ∀ k v, bgc_to_gcf_index gcfs !! k = Some v ↔
         ∃ pre post, gcfs = pre ++ (k, v) :: post ∧ k ∉ post.*1.
Proof.
  split; [apply bgc_to_gcf_index_dom|].
  induction gcfs as [|[k' v'] gcfs IH] using rev_ind; intros k v.
  - split; [done|]. intros (pre & post & Heq & _). by destruct pre.
  - rewrite bgc_to_gcf_index_snoc. destruct (decide (k' = k)) as [->|Hne].
    + rewrite lookup_insert_eq. split.
      * intros [= ->]. exists gcfs, []. split; [done|]. apply not_elem_of_nil.
      * intros (pre & post & Heq & Hpost).
        destruct post as [|p post _] using rev_ind.
        { apply app_inj_tail in Heq as [_ Heq]. congruence. }
        rewrite app_comm_cons, app_assoc in Heq.
        apply app_inj_tail in Heq as [_ <-].
        exfalso. apply Hpost. rewrite fmap_app. apply elem_of_app. right. left.
    + rewrite lookup_insert_ne by done. rewrite IH. split.
      * intros (pre & post & -> & Hpost).
        exists pre, (post ++ [(k', v')]). split; [by rewrite <-app_assoc|].
        rewrite fmap_app. intros [?|Hk]%elem_of_app; [done|].
        apply list_elem_of_singleton in Hk. done.
      * intros (pre & post & Heq & Hpost).
        destruct post as [|p post _] using rev_ind.
        { apply app_inj_tail in Heq as [_ Heq]. congruence. }
        rewrite app_comm_cons, app_assoc in Heq.
        apply app_inj_tail in Heq as [-> <-].
        exists pre, post. split; [done|].
        intros Hk. apply Hpost. rewrite fmap_app. apply elem_of_app. by left.
Qed.

(** ** Success and shape of the ingestion *)

Lemma mapM_result_is_Ok {P A B} (f : A → result P B) (l : list A) :
  (∃ ys, mapM f l = Ok ys) ↔ ∀ x, x ∈ l → ∃ y, f x = Ok y.
Proof.
  split; [|apply mapM_result_total].
  intros [ys Hys%mapM_result_Ok] x Hx.
  destruct (Forall2_elem_of_l _ _ _ _ Hys Hx) as (y & _ & Hy). by exists y.
Qed.

Lemma region_gene_is_Ok record cds :
  (∃ g, region_gene record cds = Ok g) ↔ region_ok cds.
Proof.
  rewrite region_gene_spec. unfold region_ok.
  destruct (fallback_id cds) as [id_|]; [|split; [by intros [? ?]|by intros [[? ?] _]]].
  destruct (qualifier "translation" cds) as [seq|].
  - split; [by split; eexists|by eexists].
  - split; [by intros [? ?]|by intros [_ [? ?]]].
Qed.

Lemma record_gene_is_Ok record cds :
  (∃ g, record_gene record cds = Ok g) ↔ record_ok cds.
Proof.
  rewrite record_gene_spec. unfold record_ok.
  destruct (qualifier "translation" cds) as [seq|]; [split; by eexists|].
  split; [by intros [? ?]|by intros [? ?]].
Qed.

Lemma region_to_cluster_is_Ok record bgc_id :
  (∃ c, region_to_cluster record bgc_id = Ok c) ↔
  ∀ cds, cds ∈ r_features record → is_CDS cds → region_ok cds.
Proof.
  transitivity (∃ genes, mapM (region_gene record)
                           (filter is_CDS (r_features record)) = Ok genes).
  - split.
    + intros [c (genes & Hg & _)%region_to_cluster_Ok]. by exists genes.
    + intros [genes Hg]. eexists. apply region_to_cluster_Ok. by exists genes.
  - rewrite mapM_result_is_Ok. split.
    + intros H cds Hin Hcds. apply (region_gene_is_Ok record), H.
      by apply list_elem_of_filter.
    + intros H cds [Hcds Hin]%list_elem_of_filter. apply region_gene_is_Ok. auto.
Qed.

Lemma record_to_cluster_is_Ok record :
  (∃ c, record_to_cluster record = Ok c) ↔
  ∀ cds, cds ∈ r_features record → is_CDS cds → record_ok cds.
Proof.
  transitivity (∃ genes, mapM (record_gene record)
                           (filter is_CDS (r_features record)) = Ok genes).
  - split.
    + intros [c (genes & Hg & _)%record_to_cluster_Ok]. by exists genes.
    + intros [genes Hg]. eexists. apply record_to_cluster_Ok. by exists genes.
  - rewrite mapM_result_is_Ok. split.
    + intros H cds Hin Hcds. apply (record_gene_is_Ok record), H.
      by apply list_elem_of_filter.
    + intros H cds [Hcds Hin]%list_elem_of_filter. apply record_gene_is_Ok. auto.
Qed.

(** X3: the ingestion succeeds exactly when every coding feature of every
    record that passes the membership test is well formed (identifier and
    translation for the antiSMASH family, translation for the GECCO
    family); a malformed record outside the representative set is skipped
    before it is normalised and cannot abort the run. *)
Theorem clusters_Ok_iff reps AS_RECORDS GECCO_RECORDS :
  (∃ cs, clusters reps AS_RECORDS GECCO_RECORDS = Ok cs) ↔
  (∀ record cds, record ∈ concat AS_RECORDS → canonical (r_name record) ∈ reps →
     cds ∈ r_features record → is_CDS cds → region_ok cds) ∧
  (∀ record cds, record ∈ concat GECCO_RECORDS → r_name record ∈ reps →
     cds ∈ r_features record → is_CDS cds → record_ok cds).
Proof.
  transitivity ((∃ as_, antismash_ingest reps AS_RECORDS = Ok as_) ∧
                (∃ gs, gecco_ingest reps GECCO_RECORDS = Ok gs)).
  - split.
    + intros [cs (gs & as_ & Hg & Ha & _)%clusters_Ok]. split; by eexists.
    + intros [[as_ Ha] [gs Hg]]. exists (gs ++ as_). apply clusters_Ok.
      by exists gs, as_.
  - rewrite antismash_ingest_filter, gecco_ingest_filter, !mapM_result_is_Ok.
    split.
    + intros [Ha Hg]. split; intros record cds Hin Hrep.
      * apply (proj1 (region_to_cluster_is_Ok record (canonical (r_name record)))).
        apply Ha. by apply list_elem_of_filter.
      * apply (proj1 (record_to_cluster_is_Ok record)).
        apply Hg. by apply list_elem_of_filter.
    + intros [Ha Hg]. split; intros record [Hrep Hin]%list_elem_of_filter.
      * apply region_to_cluster_is_Ok. intros cds. by apply Ha.
      * apply record_to_cluster_is_Ok. intros cds. by apply Hg.
Qed.

Lemma Forall2_fmap_eq {A B C} (f : A → C) (g : B → C) l k :
  Forall2 (λ x y, g y = f x) l k → g <$> k = f <$> l.
Proof. induction 1 as [|x y l k Hxy _ IH]; [done|]. cbn. by rewrite Hxy, IH. Qed.

(** X4: the merged collection keeps the discovery order: first the
    clusters of the GECCO files, keyed by the record names that are
    representatives, then those of the antiSMASH files, keyed by the
    canonical identifiers that are representatives, each family in file
    and record order, one cluster per passing record. *)
Theorem clusters_discovery_order reps AS_RECORDS GECCO_RECORDS cs :
  clusters reps AS_RECORDS GECCO_RECORDS = Ok cs →
  c_id <$> cs =
    (r_name <$> filter (λ record, r_name record ∈ reps) (concat GECCO_RECORDS)) ++
    (canonical ∘ r_name <$>
       filter (λ record, canonical (r_name record) ∈ reps) (concat AS_RECORDS)) ∧
  length cs = length (ingested_records reps AS_RECORDS GECCO_RECORDS).
Proof.
  intros (gs & as_ & Hg & Ha & ->)%clusters_Ok.
  rewrite gecco_ingest_filter, mapM_result_Ok in Hg.
  rewrite antismash_ingest_filter, mapM_result_Ok in Ha.
  split.
  - rewrite fmap_app. f_equal.
    + apply Forall2_fmap_eq. eapply Forall2_impl; [exact Hg|].
      intros r c (? & _ & ->)%record_to_cluster_Ok. done.
    + apply Forall2_fmap_eq. eapply Forall2_impl; [exact Ha|].
      intros r c (? & _ & ->)%region_to_cluster_Ok. done.
  - unfold ingested_records. rewrite !length_app.
    by rewrite (Forall2_length _ _ _ Hg), (Forall2_length _ _ _ Ha).
Qed.

Lemma clusters_discovery_order_witness :
  ∃ cs,
    clusters (representative_ids Sample.gcfs)
      [[Sample.mibig]; [Sample.region; Sample.anonymous_region]]
      [[Sample.gecco_cluster; Sample.gecco_other]] = Ok cs ∧
    c_id <$> cs = ["NZ_CP1_cluster_1"; "BGC0000001"; "NZ_CP1.region001"].
Proof.
  eexists. split; [vm_compute; reflexivity|].
  refine (eq_trans (proj1 (clusters_discovery_order (representative_ids Sample.gcfs)
      [[Sample.mibig]; [Sample.region; Sample.anonymous_region]]
      [[Sample.gecco_cluster; Sample.gecco_other]] _ _)) _);
    vm_compute; reflexivity.
Defined.

Lemma region_to_cluster_genes record bgc_id c :
  region_to_cluster record bgc_id = Ok c →
  c_id c = bgc_id ∧
  Forall2 (λ cds g, gene_of_feature record cds g ∧
                    fallback_id cds = Some (p_id (g_protein g)))
    (filter is_CDS (r_features record)) (c_genes c).
Proof.
  intros (genes & Hg & ->)%region_to_cluster_Ok. split; [done|].
  apply mapM_result_Ok in Hg. cbn. eapply Forall2_impl; [exact Hg|].
  intros cds g Hcds. cbv beta in Hcds. rewrite region_gene_spec in Hcds.
  destruct (fallback_id cds); [|done].
  destruct (qualifier "translation" cds) eqn:Hq; [|done].
  injection Hcds as <-. unfold gene_of_feature. by rewrite Hq.
Qed.

Lemma record_to_cluster_genes record c :
  record_to_cluster record = Ok c →
  c_id c = r_name record ∧
  Forall2 (λ cds g, gene_of_feature record cds g ∧
                    p_id (g_protein g) = r_name record)
    (filter is_CDS (r_features record)) (c_genes c).
Proof.
  intros (genes & Hg & ->)%record_to_cluster_Ok. split; [done|].
  apply mapM_result_Ok in Hg. cbn. eapply Forall2_impl; [exact Hg|].
  intros cds g Hcds. cbv beta in Hcds. rewrite record_gene_spec in Hcds.
  destruct (qualifier "translation" cds) eqn:Hq; [|done].
  injection Hcds as <-. unfold gene_of_feature. by rewrite Hq.
Qed.

(** X5: a normaliser that returns builds one gene per coding feature, in
    feature order, and ignores the other features; each gene has the
    coordinates and the first translation of its feature, the coding
    strand, no domain, and refers back to the record. [region_to_cluster]
    names the protein by the fallback chain and keys the cluster by the
    identifier it is given; [record_to_cluster] names protein and cluster
    after the record. *)
Theorem normalised_genes record :
  (∀ bgc_id c, region_to_cluster record bgc_id = Ok c →
     c_id c = bgc_id ∧
     Forall2 (λ cds g, gene_of_feature record cds g ∧
                       fallback_id cds = Some (p_id (g_protein g)))
       (filter is_CDS (r_features record)) (c_genes c)) ∧
  (∀ c, record_to_cluster record = Ok c →
     c_id c = r_name record ∧
     Forall2 (λ cds g, gene_of_feature record cds g ∧
                       p_id (g_protein g) = r_name record)
       (filter is_CDS (r_features record)) (c_genes c)).
Proof.
  split.
  - intros bgc_id c. apply region_to_cluster_genes.
  - intros c. apply record_to_cluster_genes.
Qed.

Lemma normalised_genes_witness :
  ∃ c, region_to_cluster Sample.mibig "BGC0000001" = Ok c ∧
       c_id c = "BGC0000001" ∧ length (c_genes c) = 3.
Proof.
  eexists. split; [vm_compute; reflexivity|].
  match goal with
  | |- c_id ?c = _ ∧ _ =>
      destruct (proj1 (normalised_genes Sample.mibig) "BGC0000001" c)
        as [Hid Hgenes]; [vm_compute; reflexivity|]
  end.
  split; [exact Hid|].
  exact (eq_trans (eq_sym (Forall2_length _ _ _ Hgenes)) eq_refl).
Defined.

(** ** Regrouping of an arbitrary gene list *)

(** X6: regrouping loses and duplicates no gene; every rebuilt cluster is
    non-empty, is keyed by the canonical form of one source record name
    and holds all the genes of that name, in the order they had in the
    flat list; without genes there is no cluster. *)
Theorem regroup_conserves (genes : list Gene) :
  genes_of (regroup genes) ≡ₚ genes ∧
  Forall (λ c, c_genes c ≠ [] ∧
               ∃ name, c_id c = canonical name ∧
                       c_genes c = filter (λ g, source_name g = name) genes)
    (regroup genes) ∧
  (regroup genes = [] ↔ genes = []).
Proof.
  split_and!.
  - rewrite genes_of_regroup. apply sort_by_Permutation.
  - unfold regroup. apply Forall_fmap, Forall_forall. intros [k g] Hin. cbn.
    pose proof (groupby_runs source_name (sort_by source_name genes)) as Hruns.
    rewrite Forall_forall in Hruns. destruct (Hruns _ Hin) as [Hne _].
    split; [done|]. exists k. split; [done|]. by apply groupby_sort_run.
  - split.
    + intros Hnil. apply Permutation_nil_r.
      rewrite <-(sort_by_Permutation source_name genes), <-genes_of_regroup.
      by rewrite Hnil.
    + by intros ->.
Qed.

Lemma cluster_source_regroup (genes : list Gene) :
  cluster_source <$> regroup genes =
    (groupby source_name (sort_by source_name genes)).*1.
Proof.
  unfold regroup. rewrite <-list_fmap_compose. apply Forall_fmap_ext.
  eapply Forall_impl; [apply groupby_runs|].
  intros [k g] [Hne Hg]. unfold cluster_source. cbn in *.
  destruct g as [|x g]; [done|]. by apply Forall_cons in Hg as [? _].
Qed.

Lemma cluster_source_sorted (genes : list Gene) :
  StronglySorted (strict String.le) (cluster_source <$> regroup genes).
Proof.
  rewrite cluster_source_regroup. apply groupby_keys_sorted, sort_by_sorted.
Qed.

(** X7: the rebuilt clusters come in strictly ascending order of source
    record name, one cluster for each source record name that owns a gene,
    whatever the order of the flat gene list. *)
Theorem regroup_source_order (genes : list Gene) :
  StronglySorted (strict String.le) (cluster_source <$> regroup genes) ∧
  ∀ name, name ∈ cluster_source <$> regroup genes ↔
          ∃ g, g ∈ genes ∧ source_name g = name.
Proof.
  split; [apply cluster_source_sorted|].
  intros name. rewrite cluster_source_regroup, groupby_key_elem.
  by setoid_rewrite sort_by_Permutation.
Qed.

(** ** Identifiers of the final clusters *)

Lemma clusters_shape reps AS_RECORDS GECCO_RECORDS cs :
  clusters reps AS_RECORDS GECCO_RECORDS = Ok cs →
  Forall2 (λ record c, owned_by record c ∧
                       length (c_genes c) = length (coding record))
    (ingested_records reps AS_RECORDS GECCO_RECORDS) cs.
Proof.
  intros (gs & as_ & Hg & Ha & ->)%clusters_Ok.
  rewrite gecco_ingest_filter, mapM_result_Ok in Hg.
  rewrite antismash_ingest_filter, mapM_result_Ok in Ha.
  apply Forall2_app.
  - eapply Forall2_impl; [exact Hg|]. intros r c Hc. cbv beta in Hc.
    split; [by eapply record_to_cluster_owned|].
    destruct (record_to_cluster_genes r c Hc) as [_ Hgenes].
    symmetry. by eapply Forall2_length.
  - eapply Forall2_impl; [exact Ha|]. intros r c Hc. cbv beta in Hc.
    split; [by eapply region_to_cluster_owned|].
    destruct (region_to_cluster_genes r _ c Hc) as [_ Hgenes].
    symmetry. by eapply Forall2_length.
Qed.

Lemma annotation_shape records cs cs' :
  Forall2 (λ record c, owned_by record c ∧
                       length (c_genes c) = length (coding record)) records cs →
  annotation cs cs' →
  Forall2 (λ record c, owned_by record c ∧
                       length (c_genes c) = length (coding record)) records cs'.
Proof.
  intros Hs. revert cs'. induction Hs as [|r c rs cs [Hrc Hlen] Hs IH]; intros cs' Ha.
  - apply Forall2_nil_inv_l in Ha as ->. constructor.
  - apply Forall2_cons_inv_l in Ha as (c' & cs'' & [Hid Hg] & Ha & ->).
    constructor; [|by apply IH]. split.
    + assert (Forall2 owned_by [r] [c']) as Ho.
      { apply (annotation_owned [r] [c] [c']); repeat constructor; done. }
      by apply Forall2_cons_1 in Ho as [? _].
    + by rewrite <-(Forall2_length _ _ _ Hg).
Qed.

Lemma filtered_gene_sources reps AS_RECORDS GECCO_RECORDS cs cs' name :
  clusters reps AS_RECORDS GECCO_RECORDS = Ok cs → annotation cs cs' →
  (∃ g, g ∈ filter_genes (genes_of cs') ∧ source_name g = name) ↔
  ∃ record, record ∈ ingested_records reps AS_RECORDS GECCO_RECORDS ∧
            coding record ≠ [] ∧ r_name record = name.
Proof.
  intros Hcs Hann.
  pose proof (annotation_shape _ _ _ (clusters_shape _ _ _ _ Hcs) Hann) as Hs.
  split.
  - intros (g & (g0 & -> & Hg0)%list_elem_of_fmap & Hname).
    apply elem_of_genes_of in Hg0 as (c' & Hc' & Hg0).
    destruct (Forall2_elem_of_r _ _ _ _ Hs Hc') as (r & Hr & Hown & Hlen).
    exists r. split; [done|]. unfold owned_by in Hown.
    rewrite Forall_forall in Hown. split.
    + intros Hnil. rewrite Hnil in Hlen. destruct (c_genes c'); [|done].
      by apply elem_of_nil in Hg0.
    + rewrite <-Hname. unfold source_name. cbn. by rewrite (Hown _ Hg0).
  - intros (r & Hr & Hcod & Hname).
    destruct (Forall2_elem_of_l _ _ _ _ Hs Hr) as (c' & Hc' & Hown & Hlen).
    destruct (c_genes c') as [|g0 gs] eqn:Hgenes.
    { destruct (coding r); done. }
    exists (filter_gene g0). split.
    + apply list_elem_of_fmap_2, elem_of_genes_of. exists c'.
      split; [done|]. rewrite Hgenes. left.
    + unfold owned_by in Hown. rewrite Hgenes in Hown.
      apply Forall_cons in Hown as [Hg0 _]. unfold source_name. cbn.
      by rewrite Hg0.
Qed.

Lemma c_id_regroup (genes : list Gene) :
  c_id <$> regroup genes =
    canonical <$> (groupby source_name (sort_by source_name genes)).*1.
Proof. unfold regroup. by rewrite <-!list_fmap_compose. Qed.

Lemma regroup_ids_ingested reps AS_RECORDS GECCO_RECORDS cs cs' :
  clusters reps AS_RECORDS GECCO_RECORDS = Ok cs → annotation cs cs' →
  ∀ k, k ∈ c_id <$> regroup (filter_genes (genes_of cs')) ↔
       ∃ record, record ∈ ingested_records reps AS_RECORDS GECCO_RECORDS ∧
                 coding record ≠ [] ∧ canonical (r_name record) = k.
Proof.
  intros Hcs Hann k. rewrite c_id_regroup, list_elem_of_fmap.
  setoid_rewrite groupby_key_elem. setoid_rewrite sort_by_Permutation.
  split.
  - intros (name & -> & Hg).
    apply (filtered_gene_sources _ _ _ _ _ _ Hcs Hann) in Hg as (r & ? & ? & <-).
    by exists r.
  - intros (r & Hr & Hcod & <-). exists (r_name r). split; [done|].
    apply (filtered_gene_sources _ _ _ _ _ _ Hcs Hann). by exists r.
Qed.

(** X8: across ingestion, annotation, filtering and regrouping, the
    identifiers of the final clusters are exactly the canonical identifiers
    of the ingested records that have at least one coding feature; an
    ingested record without coding feature yields no final cluster. *)
Theorem final_cluster_ids reps AS_RECORDS GECCO_RECORDS cs cs' :
  clusters reps AS_RECORDS GECCO_RECORDS = Ok cs → annotation cs cs' →
  ∀ k, k ∈ c_id <$> regroup (filter_genes (genes_of cs')) ↔
       ∃ record, record ∈ ingested_records reps AS_RECORDS GECCO_RECORDS ∧
                 coding record ≠ [] ∧ canonical (r_name record) = k.
Proof. apply regroup_ids_ingested. Qed.

Lemma final_cluster_ids_witness :
  ∃ cs,
    clusters (representative_ids Sample.gcfs)
      [[Sample.mibig]; [Sample.region; Sample.anonymous_region]]
      [[Sample.gecco_cluster; Sample.gecco_other]] = Ok cs ∧
    ("BGC0000001" ∈ c_id <$> regroup (filter_genes (genes_of (annotate Sample.hits cs)))
     ↔ ∃ record,
         record ∈ ingested_records (representative_ids Sample.gcfs)
           [[Sample.mibig]; [Sample.region; Sample.anonymous_region]]
           [[Sample.gecco_cluster; Sample.gecco_other]] ∧
         coding record ≠ [] ∧ canonical (r_name record) = "BGC0000001").
Proof.
  eexists. split; [vm_compute; reflexivity|].
  eapply final_cluster_ids; [vm_compute; reflexivity|apply annotation_annotate].
Defined.

Lemma present_representative gcfs c :
  present (bgc_to_gcf_index gcfs) c ↔ c_id c ∈ representative_ids gcfs.
Proof. unfold present. by rewrite <-elem_of_dom, bgc_to_gcf_index_dom. Qed.

Section LabelsAvailable.
Context {Row : Type} (domain_composition : Cluster → list string → res Row)
        (empty_row : Row) (makedirs : string → io Row ())
        (os_error : syscall → FS Row → option (exn Feature * FS Row))
        (sort_other : list (cell * Cluster) → res (list Cluster)).

(** X9: with the representative set and the label dict read from one
    table, every final cluster has a label exactly when each ingested
    GECCO record with a coding feature has its canonical identifier in the
    table as well (it was admitted on its verbatim name); otherwise the
    second phase stops with a [KeyError] on an identifier outside the
    table and writes nothing. *)
Theorem labels_available_iff gcfs AS_RECORDS GECCO_RECORDS cs cs' :
  let reps := representative_ids gcfs in
  let index := bgc_to_gcf_index gcfs in
  clusters reps AS_RECORDS GECCO_RECORDS = Ok cs → annotation cs cs' →
  (Forall (present index) (regroup (filter_genes (genes_of cs'))) ↔
   ∀ record, record ∈ concat GECCO_RECORDS → r_name record ∈ reps →
             coding record ≠ [] → canonical (r_name record) ∈ reps) ∧
  (¬ Forall (present index) (regroup (filter_genes (genes_of cs'))) →
   ∀ output (fs : FS Row),
     ∃ k, (k ∉ reps) ∧
          second_phase domain_composition empty_row makedirs os_error sort_other
            index output (genes_of cs') fs =
            (Raise (KeyError k), fs)).
Proof.
  intros reps index Hcs Hann.
  pose proof (regroup_ids_ingested _ _ _ _ _ Hcs Hann) as Hids.
  split.
  - rewrite Forall_forall. split.
    + intros Hall r Hr Hrep Hcod.
      assert (canonical (r_name r) ∈
                c_id <$> regroup (filter_genes (genes_of cs'))) as Hin.
      { apply Hids. exists r. split_and!; [|done..].
        apply elem_of_app. left. by apply list_elem_of_filter. }
      apply list_elem_of_fmap in Hin as (c & -> & Hc).
      by apply present_representative, Hall.
    + intros Hg c Hc. apply present_representative.
      destruct (proj1 (Hids (c_id c))) as (r & Hr & Hcod & <-).
      { by apply list_elem_of_fmap_2. }
      apply elem_of_app in Hr as [Hr|Hr]; apply list_elem_of_filter in Hr as [Hrep Hr].
      * by apply Hg.
      * done.
  - intros Hnot output fs. unfold second_phase.
    destruct (first_missing index (regroup (filter_genes (genes_of cs'))))
      as [Hall|(pre & c & post & Heq & Hpre & Hc)]; [done|].
    exists (c_id c). split.
    + intros Hin. apply present_representative in Hin as [v Hv].
      unfold index in Hc. by rewrite Hv in Hc.
    + rewrite Heq. apply finalize_unordered. by apply sort_by_key_missing.
Qed.

End LabelsAvailable.

Lemma labels_available_iff_witness :
  ∃ cs,
    clusters (representative_ids Sample.gcfs)
      [[Sample.mibig]; [Sample.region; Sample.anonymous_region]]
      [[Sample.gecco_cluster; Sample.gecco_other]] = Ok cs ∧
    (Forall (present (bgc_to_gcf_index Sample.gcfs))
       (regroup (filter_genes (genes_of (annotate Sample.hits cs)))) ↔
     ∀ record,
       record ∈ concat [[Sample.gecco_cluster; Sample.gecco_other]] →
       r_name record ∈ representative_ids Sample.gcfs →
       coding record ≠ [] →
       canonical (r_name record) ∈ representative_ids Sample.gcfs).
Proof.
  eexists. split; [vm_compute; reflexivity|].
  match goal with
  | |- context [annotate Sample.hits ?cs] =>
      assert (clusters (representative_ids Sample.gcfs)
                [[Sample.mibig]; [Sample.region; Sample.anonymous_region]]
                [[Sample.gecco_cluster; Sample.gecco_other]] = Ok cs) as Hcs
        by (vm_compute; reflexivity);
      exact (proj1 (labels_available_iff Sample.counts [] Sample.makedirs
                      Sample.reliable Sample.sort_other Sample.gcfs _ _ cs _ Hcs
                      (annotation_annotate Sample.hits cs)))
  end.
Defined.

(** ** The report of missing representatives *)

Lemma all_clusters_set_Permutation (cs cs' : list Cluster) :
  cs ≡ₚ cs' → all_clusters_set cs = all_clusters_set cs'.
Proof.
  intros Hp. unfold all_clusters_set. apply set_eq. intros k.
  by rewrite !elem_of_list_to_set, Hp.
Qed.

(** X10: the identifiers counted as missing at the end of the run are the
    representatives that are the canonical identifier of no ingested
    record with a coding feature: those that no source record matched and
    those whose records have no coding feature; once every final cluster
    is labelled, the count and the number of distinct final identifiers
    add up to the number of representatives. *)
Theorem missing_report gcfs AS_RECORDS GECCO_RECORDS cs cs' :
  let reps := representative_ids gcfs in
  let index := bgc_to_gcf_index gcfs in
  let final := sort_by (gcf_of index) (regroup (filter_genes (genes_of cs'))) in
  clusters reps AS_RECORDS GECCO_RECORDS = Ok cs → annotation cs cs' →
  (∀ k, k ∈ reps ∖ all_clusters_set final ↔
        k ∈ reps ∧
        ∀ record, record ∈ ingested_records reps AS_RECORDS GECCO_RECORDS →
                  coding record ≠ [] → canonical (r_name record) ≠ k) ∧
  (Forall (present index) final →
     missing reps final + size (all_clusters_set final) = size reps).
Proof.
  intros reps index final Hcs Hann.
  pose proof (regroup_ids_ingested _ _ _ _ _ Hcs Hann) as Hids.
  assert (all_clusters_set final =
          all_clusters_set (regroup (filter_genes (genes_of cs')))) as Hset
    by apply all_clusters_set_Permutation, sort_by_Permutation.
  split.
  - intros k. rewrite Hset, elem_of_difference. unfold all_clusters_set.
    rewrite elem_of_list_to_set, Hids. split.
    + intros [Hk Hno]. split; [done|]. intros r Hr Hcod Heq.
      apply Hno. by exists r.
    + intros [Hk Hno]. split; [done|]. intros (r & Hr & Hcod & Heq).
      by apply (Hno r).
  - intros Hall. unfold missing.
    assert (all_clusters_set final ⊆ reps) as Hsub.
    { intros k. unfold all_clusters_set.
      rewrite elem_of_list_to_set, list_elem_of_fmap. intros (c & -> & Hc).
      rewrite Forall_forall in Hall. by apply present_representative, Hall. }
    rewrite (size_difference _ _ Hsub).
    pose proof (subseteq_size _ _ Hsub). lia.
Qed.

Lemma missing_report_witness :
  ∃ cs,
    clusters (representative_ids Sample.gcfs)
      [[Sample.mibig]; [Sample.region; Sample.anonymous_region]]
      [[Sample.gecco_other]] = Ok cs ∧
    missing (representative_ids Sample.gcfs)
      (sort_by (gcf_of (bgc_to_gcf_index Sample.gcfs))
         (regroup (filter_genes (genes_of (annotate Sample.hits cs))))) = 1.
Proof.
  eexists. split; [vm_compute; reflexivity|].
  match goal with
  | |- context [annotate Sample.hits ?cs] =>
      assert (clusters (representative_ids Sample.gcfs)
                [[Sample.mibig]; [Sample.region; Sample.anonymous_region]]
                [[Sample.gecco_other]] = Ok cs) as Hcs
        by (vm_compute; reflexivity);
      pose proof (proj2 (missing_report Sample.gcfs _ _ cs _ Hcs
                           (annotation_annotate Sample.hits cs))) as H
  end.
  cbv zeta in H.
  assert (size (representative_ids Sample.gcfs) = 3) as Hreps
    by (vm_compute; reflexivity).
  match type of H with
  | _ → _ + size ?s = _ =>
      assert (size s = 2) as Hs by (vm_compute; reflexivity);
      rewrite Hs, Hreps in H
  end.
  assert (∀ n, n + 2 = 3 → n = 1) as Hn by (intros; lia).
  apply Hn, H. apply (bool_decide_unpack _). vm_compute. exact I.
Defined.

(** ** What the finalisation touches *)

Section FinalisationFrame.
Context {Row : Type} (domain_composition : Cluster → list string → res Row)
        (empty_row : Row) (makedirs : string → io Row ())
        (os_error : syscall → FS Row → option (exn Feature * FS Row))
        (sort_other : list (cell * Cluster) → res (list Cluster)).
Implicit Types (fs : FS Row) (cs : list Cluster).

(** X11: whatever its outcome, and as long as no write is refused, the
    finalisation changes the file system in two ways only: through the one
    call of [os.makedirs] on the output path, if it gets that far, and,
    after it, in the three files [labels.tsv], [domains.tsv] and
    [compositions.npz] of the output directory; it makes and removes no
    other directory. *)
Theorem finalize_touches_only_outputs index output cs fs r fs' :
  writable os_error →
  finalize domain_composition empty_row makedirs os_error sort_other
    index output cs fs = (r, fs') →
  ∃ fs1, (fs1 = fs ∨ ∃ r1, makedirs output fs = (r1, fs1)) ∧
    dirs fs' = dirs fs1 ∧
    ∀ p, p ≠ path_join output "labels.tsv" → p ≠ path_join output "domains.tsv" →
         p ≠ path_join output "compositions.npz" →
         files fs' !! p = files fs1 !! p.
Proof.
  intros Hos. unfold finalize. rewrite lift_bind.
  destruct (sort_by_key _ _ cs) as [sorted|e0].
  2:{ intros [= <- <-]. exists fs. split; [by left|done]. }
  cbv zeta. rewrite io_bind_unfold.
  destruct (makedirs output fs) as [[[]|e0] fs1] eqn:Hmk.
  2:{ intros [= <- <-]. exists fs1. split; [right; by eexists|done]. }
  intros Hrun. exists fs1. split; [right; by eexists|].
  revert Hrun.
  rewrite io_bind_unfold, write_labels_unfold, io_bind_unfold, open_w_run by done.
  destruct (write_label_lines_frame os_error index (path_join output "labels.tsv")
              sorted "" (dirs fs1) (files fs1) Hos) as (r0 & t & ->).
  destruct r0 as [[]|e0].
  2:{ intros [= <- <-]. split; [done|]. intros p Hl _ _. cbn.
      by rewrite lookup_insert_ne. }
  rewrite io_bind_unfold, write_domains_run by done.
  rewrite lift_bind. destruct (mapM _ _) as [comp|e0].
  - unfold save_npz. rewrite os_call_run by done. intros [= <- <-].
    split; [done|]. intros p Hl Hd Hn. cbn. by rewrite !lookup_insert_ne.
  - intros [= <- <-]. split; [done|]. intros p Hl Hd Hn. cbn.
    by rewrite !lookup_insert_ne.
Qed.

(** X19: a label that is not a string stops the run at line 210 with a
    [TypeError]: the directory is made, [labels.tsv] holds the lines of the
    clusters before, then the identifier of the cluster and a tab, and
    neither [domains.tsv] nor [compositions.npz] is written. *)
Theorem label_not_a_string index output cs pre c v post fs fs1 :
  sort_by_key sort_other (λ c, getitem index (c_id c)) cs = Ok (pre ++ c :: post) →
  Forall (labelled index) pre → index !! c_id c = Some v → as_str v = None →
  makedirs output fs = (Ok (), fs1) → writable os_error →
  ∃ fs',
    finalize domain_composition empty_row makedirs os_error sort_other
      index output cs fs = (Raise TypeError, fs') ∧
    dirs fs' = dirs fs1 ∧
    files fs' !! path_join output "labels.tsv" =
      Some (Text (text_of (label_line index <$> pre) +:+ c_id c +:+ TAB)) ∧
    files fs' !! path_join output "domains.tsv" =
      files fs1 !! path_join output "domains.tsv" ∧
    files fs' !! path_join output "compositions.npz" =
      files fs1 !! path_join output "compositions.npz".
Proof.
  intros Hs Hpre Hc Hv Hmk Hos.
  destruct (output_paths_distinct output) as (Hld & Hln & Hdn).
  eexists. split.
  - by apply (finalize_TypeError _ _ _ _ _ _ _ _ pre post c v fs fs1).
  - cbn. split_and!; [done|by rewrite lookup_insert_eq|by rewrite lookup_insert_ne..].
Qed.

End FinalisationFrame.

Lemma finalize_touches_only_outputs_witness :
  ∃ fs1, (fs1 = Sample.empty_fs ∨
          ∃ r1, Sample.makedirs "out" Sample.empty_fs = (r1, fs1)) ∧
    dirs (tables_written Sample.index "out"
            (sort_by (gcf_of Sample.index) Sample.all_clusters) Sample.out_fs) =
      dirs fs1 ∧
    ∀ p, p ≠ path_join "out" "labels.tsv" → p ≠ path_join "out" "domains.tsv" →
         p ≠ path_join "out" "compositions.npz" →
         files (tables_written Sample.index "out"
                  (sort_by (gcf_of Sample.index) Sample.all_clusters) Sample.out_fs)
           !! p = files fs1 !! p.
Proof.
  apply (finalize_touches_only_outputs Sample.exhausted [] Sample.makedirs
           Sample.reliable Sample.sort_other Sample.index "out"
           Sample.all_clusters Sample.empty_fs (Raise (External "MemoryError"))).
  - exact sample_reliable.
  - vm_compute. reflexivity.
Defined.

Lemma label_not_a_string_witness :
  ∃ c fs',
    Sample.numbered !! c_id c = Some (Int 1) ∧
    finalize Sample.counts [] Sample.makedirs Sample.reliable Sample.sort_other
      Sample.numbered "out" Sample.all_clusters Sample.empty_fs =
      (Raise TypeError, fs') ∧
    files fs' !! path_join "out" "labels.tsv" = Some (Text (c_id c +:+ TAB)) ∧
    files fs' !! path_join "out" "domains.tsv" =
      files Sample.out_fs !! path_join "out" "domains.tsv".
Proof.
  assert (∃ c post,
            sort_by_key Sample.sort_other (λ c, getitem Sample.numbered (c_id c))
              Sample.all_clusters = Ok ([] ++ c :: post) ∧
            Sample.numbered !! c_id c = Some (Int 1)) as (c & post & Hs & Hc).
  { eexists _, _. split; vm_compute; reflexivity. }
  destruct (label_not_a_string Sample.counts [] Sample.makedirs Sample.reliable
              Sample.sort_other Sample.numbered "out" Sample.all_clusters
              [] c (Int 1) post Sample.empty_fs Sample.out_fs Hs)
    as (fs' & Hrun & _ & Hl & Hd & _).
  - constructor.
  - exact Hc.
  - reflexivity.
  - exact sample_makedirs.
  - exact sample_reliable.
  - exists c, fs'. split; [exact Hc|]. split; [exact Hrun|].
    split; [exact Hl|exact Hd].
Defined.

(** ** The filter and the other stages *)

Lemma groupby_fmap {A B} (f : A → B) (key : B → string) (l : list A) :
  groupby key (f <$> l) =
    (λ run : string * list A, (run.1, f <$> run.2)) <$> groupby (key ∘ f) l.
Proof.
  induction l as [|x l IH]; [done|]. cbn. rewrite IH.
  destruct (groupby (key ∘ f) l) as [|[k g] gs]; [done|]. cbn.
  by destruct (decide (key (f x) = k)).
Qed.

(** X13: the significance filter is idempotent and commutes with the
    regrouping: filtering the flat list and regrouping gives the clusters
    of the unfiltered list with each gene filtered, so that the filter
    changes neither the clusters that are rebuilt nor their order. *)
Theorem filter_regroup_commute (genes : list Gene) :
  filter_genes (filter_genes genes) = filter_genes genes ∧
  regroup (filter_genes genes) =
    (λ c, mkCluster (c_id c) (filter_gene <$> c_genes c)) <$> regroup genes.
Proof.
  split.
  - unfold filter_genes. rewrite <-list_fmap_compose. apply list_fmap_ext.
    intros i g _. unfold filter_gene, with_protein, with_domains. cbn.
    do 2 f_equal. rewrite list_filter_filter. apply list_filter_iff. tauto.
  - unfold regroup, filter_genes.
    rewrite sort_by_fmap, groupby_fmap, <-!list_fmap_compose. done.
Qed.

(** X14: a domain whose p-value is not a number is never kept: the
    comparison with the threshold is false on NaN. *)
Theorem nan_not_significant (d : Domain) :
  PrimFloat.is_nan (d_pvalue d) = true → significant d = false.
Proof.
  intros Hnan. unfold significant. rewrite ltb_spec.
  unfold Prim2SF at 1. by rewrite Hnan.
Qed.

Lemma nan_not_significant_witness :
  significant (mkDomain "PF00003" nan) = false.
Proof. exact (nan_not_significant (mkDomain "PF00003" nan) eq_refl). Defined.

(** ** The order of the rows *)

Section StableTies.
Context {A : Type} (key tie : A → string).





End StableTies.



(** ** The empty vocabulary *)

(** X17: the vocabulary is empty, and [domains.tsv] an empty file, exactly
    when no domain of any annotated gene has a p-value below the
    threshold. *)
Theorem vocabulary_empty_iff (genes : list Gene) :
  all_possible (regroup (filter_genes genes)) = [] ↔
  ∀ g d, g ∈ genes → d ∈ p_domains (g_protein g) → significant d = false.
Proof.
  destruct (all_possible_spec (regroup (filter_genes genes))) as (_ & _ & Hin).
  split.
  - intros Hnil g d Hg Hd. destruct (significant d) eqn:Hs; [|done].
    assert (d_name d ∈ all_possible (regroup (filter_genes genes))) as Hn.
    { apply Hin, regroup_domains. by exists g, d. }
    rewrite Hnil in Hn. by apply elem_of_nil in Hn.
  - intros Hnone. destruct (all_possible _) as [|n ns]; [done|].
    assert (n ∈ domain_names (regroup (filter_genes genes))) as Hn
      by (apply Hin; left).
    apply regroup_domains in Hn as (g0 & d0 & Hg0 & Hd0 & _ & Hs).
    by rewrite (Hnone _ _ Hg0 Hd0) in Hs.
Qed.

(** ** The error that aborts the ingestion *)

Lemma region_gene_error record cds :
  ¬ region_ok cds → region_gene record cds = Raise (region_error cds).
Proof.
  intros Hnot. rewrite region_gene_spec. unfold region_error, region_ok in *.
  destruct (fallback_id cds) as [id_|]; [|done].
  destruct (qualifier "translation" cds) as [seq|]; [|done].
  exfalso. apply Hnot. by split; eexists.
Qed.

(** X18: the antiSMASH files are read first and in order, so the run
    aborts at the first coding feature, in file and feature order, of a
    passing antiSMASH record that is not well formed: with exit status 1
    and the feature printed when it has no identifier, with a [KeyError]
    when it has one and no translation; whatever the records after it and
    the GECCO files hold. *)
Theorem clusters_first_error reps AS_RECORDS GECCO_RECORDS pre record post
    fpre cds fpost :
  filter (λ r, canonical (r_name r) ∈ reps) (concat AS_RECORDS) =
    pre ++ record :: post →
  (∀ r f, r ∈ pre → f ∈ r_features r → is_CDS f → region_ok f) →
  filter is_CDS (r_features record) = fpre ++ cds :: fpost →
  Forall region_ok fpre → ¬ region_ok cds →
  clusters reps AS_RECORDS GECCO_RECORDS = Raise (region_error cds).
Proof.
  intros Hkept Hpre Hfeat Hfpre Hcds. unfold clusters.
  rewrite antismash_ingest_filter, Hkept.
  destruct (mapM_result_total
              (λ r, region_to_cluster r (canonical (r_name r))) pre) as [cs Hcs].
  { intros r Hr. apply region_to_cluster_is_Ok. intros f. by apply Hpre. }
  destruct (mapM_result_total (region_gene record) fpre) as [gs Hgs].
  { intros f Hf. apply region_gene_is_Ok. rewrite Forall_forall in Hfpre. auto. }
  rewrite (mapM_result_first_raise _ _ _ _ _ (region_error cds) Hcs); [done|].
  apply (region_to_cluster_first_raise _ _ _ _ _ _ _ Hfeat Hgs).
  by apply region_gene_error.
Qed.

Lemma clusters_first_error_witness :
  clusters {["NZ_CP1.region001"; "NZ_CP5.region001"; "NZ_CP3.region001"]}
    [[Sample.region; Sample.mibig]; [Sample.twice_broken_region; Sample.anonymous_region]]
    [[Sample.broken_region]] = Raise (KeyError "translation").
Proof.
  refine (clusters_first_error _ _ _ [Sample.region] Sample.twice_broken_region
            [Sample.anonymous_region] [Sample.cds_gene] Sample.cds_untranslated
            [Sample.cds_anonymous] _ _ _ _ _).
  - vm_compute. reflexivity.
  - intros r f ->%list_elem_of_singleton Hf Hcds.
    apply elem_of_cons in Hf as [->|Hf].
    + discriminate Hcds.
    + apply list_elem_of_singleton in Hf as ->. split; vm_compute; by eexists.
  - vm_compute. reflexivity.
  - repeat constructor; vm_compute; by eexists.
  - intros [_ [v Hv]]. vm_compute in Hv. discriminate Hv.
Defined.
